(** * Unit compatibility of meters and groups (OED, determineCompatibleUnits.ts)

    A shallow embedding of [src/client/app/utils/determineCompatibleUnits.ts].
    The source file holds two successive revisions of the module; they are
    embedded as [Rev1] (lines 1-293) and [Rev2] (lines 294-653).

    Modelling choices:
    - a JavaScript [number] used as an id or an index is a [Z];
    - a [Set<number>] is the list of its elements in insertion order (the
      order [forEach] and [Array.from] visit them); a well-formed set has no
      duplicates ([NoDup]);
    - an object used as a map from ids (byMeterID, byGroupID) is the list of
      its (key, value) properties in enumeration order;
    - reading a property of [undefined] throws: every function that can do
      so returns a [Completion]. *)

From Stdlib Require Import ZArith.
From stdpp Require Import base decidable option list list_numbers strings.

(** ** Completions: a call returns a value or throws *)

(** The only exception the module can raise is the run-time [TypeError] of
    reading a property of [undefined] (the result of a failed [_.find],
    [_.get] or index). *)
Inductive JSError : Type :=
  | TypeError.

Inductive Completion (A : Type) : Type :=
  | Return (a : A)
  | Throw (e : JSError).
Arguments Return {A} a.
Arguments Throw {A} e.

#[global] Instance Completion_ret : MRet Completion := λ A a, Return a.
#[global] Instance Completion_bind : MBind Completion := λ A B f c,
  match c with
  | Return a => f a
  | Throw e => Throw e
  end.

(** Reading a property of a value that may be [undefined]. *)
Definition deref {A : Type} (o : option A) : Completion A :=
  match o with
  | Some a => Return a
  | None => Throw TypeError
  end.

(** [coll.forEach(body)] (and a [for] loop over a fixed range) with the
    variables the body assigns threaded as the state [s]. An exception in
    the body leaves the loop. *)
Fixpoint forEach {A S : Type} (body : S → A → Completion S)
    (l : list A) (s : S) : Completion S :=
  match l with
  | [] => Return s
  | x :: l' => s' ← body s x; forEach body l' s'
  end.

(** ** JavaScript sets of numbers *)

Module JSSet.
(** [s.has(x)] *)
Definition has (s : list Z) (x : Z) : bool := bool_decide (x ∈ s).

(** [s.add(x)]: a new element goes last, a present one changes nothing. *)
Definition add (s : list Z) (x : Z) : list Z :=
  if has s x then s else s ++ [x].

(** [new Set(array)] *)
Definition of_array (a : list Z) : list Z := foldl add [] a.

(** [s.size] *)
Definition size (s : list Z) : nat := length s.
End JSSet.

(** ** Arrays and objects *)

(** [a[i]] for a numeric [i]: [undefined] outside the array. *)
Definition Array_get {A : Type} (a : list A) (i : Z) : option A :=
  if bool_decide (0 ≤ i)%Z then a !! Z.to_nat i else None.

(** [obj[key]] and [_.get(obj, key)]: the property under [key], if any. *)
Fixpoint Object_get {V : Type} (obj : list (Z * V)) (key : Z) : option V :=
  match obj with
  | [] => None
  | (k, v) :: obj' => if bool_decide (k = key) then Some v else Object_get obj' key
  end.

(** [Object.values(obj)] *)
Definition Object_values {V : Type} (obj : list (Z * V)) : list V := obj.*2.

(** [_.find(coll, pred)]: the first element satisfying [pred], if any. *)
Definition lodash_find {A : Type} (coll : list A) (pred : A → bool) : option A :=
  List.find pred coll.

(** ** Data model (types/redux, types/items, types/Datasources) *)

(** Modelled from the spec: the enum [UnitType] of types/redux/units is not
    part of the sources at hand. The code only names [UnitType.meter]; the
    spec describes a type tag distinguishing source (meter) units from all
    other unit kinds, which are kept apart here by their tag string. *)
Inductive UnitType : Type :=
  | meter
  | otherUnitType (tag : string).

#[global] Instance UnitType_eq_dec : EqDecision UnitType.
Proof. solve_decision. Defined.

(** The fields of [UnitData], [MeterData] and [GroupDefinition] the module
    reads. *)
Record UnitData : Type := mkUnitData {
  unit_id : Z;
  unit_unitIndex : Z;
  unit_typeOfUnit : UnitType
}.

Record MeterData : Type := mkMeterData {
  meter_id : Z;
  meter_identifier : string;
  meter_unitId : Z
}.

Record GroupDefinition : Type := mkGroupDefinition {
  group_id : Z;
  group_name : string;
  group_deepMeters : list Z;
  group_defaultGraphicUnit : Z
}.

(** [DataType.Meter] and [DataType.Group]. *)
Inductive DataType : Type :=
  | Meter
  | Group.

#[global] Instance DataType_eq_dec : EqDecision DataType.
Proof. solve_decision. Defined.

(** The Redux state read through [store.getState()]. *)
Record State : Type := mkState {
  meters_byMeterID : list (Z * MeterData);
  units_units : list UnitData;
  groups_byGroupID : list (Z * GroupDefinition)
}.

(** Modelled from the spec: the class [ConversionArray] of
    types/conversionArray is not part of the sources at hand. The spec's
    Relation Provider supplies a readiness flag ([pikAvailable()]) and the
    boolean relation [pik[row][col]]. *)
Record ConversionArray : Type := mkConversionArray {
  pikAvailable : bool;
  pik : list (list bool)
}.

(** Everything the module reads: the store's state and the static
    [ConversionArray]. Nothing in the module writes to either. *)
Record Env : Type := mkEnv {
  getState : State;
  conversionArray : ConversionArray
}.

(** [React.CSSProperties] as the module builds them: property/value pairs. *)
Definition CSSProperties : Type := list (string * string).

(** [SelectOption]; [style] is absent ([None]) in options built without it. *)
Record SelectOption : Type := mkSelectOption {
  label : string;
  value : Z;
  isDisabled : bool;
  style : option CSSProperties
}.

(** [option.isDisabled = b] and [option.style = css] *)
Definition set_isDisabled (b : bool) (o : SelectOption) : SelectOption :=
  mkSelectOption (label o) (value o) b (style o).
Definition set_style (css : CSSProperties) (o : SelectOption) : SelectOption :=
  mkSelectOption (label o) (value o) (isDisabled o) (Some css).

(** The enum [GroupCase]. *)
Inductive GroupCase : Type :=
  | NoChange
  | LostCompatibleUnits
  | LostDefaultGraphicUnit
  | NoCompatibleUnits.

#[global] Instance GroupCase_eq_dec : EqDecision GroupCase.
Proof. solve_decision. Defined.

(** ** First revision (lines 1-293) *)

Module Rev1.

Definition setIntersect (setA setB : list Z) : list Z :=
  JSSet.of_array (List.filter (λ i, JSSet.has setB i) setA).

Definition pRowFromUnit (env : Env) (unitId : Z) : Completion Z :=
  unit ← deref (lodash_find (units_units (getState env)) (λ o,
    bool_decide (unit_id o = unitId)
    && bool_decide (unit_typeOfUnit o = meter)));
  mret (unit_unitIndex unit).

Definition unitFromPRow (env : Env) (row : Z) : Completion Z :=
  unit ← deref (lodash_find (units_units (getState env)) (λ o,
    bool_decide (unit_unitIndex o = row)
    && bool_decide (unit_typeOfUnit o = meter)));
  mret (unit_id unit).

Definition unitFromPColumn (env : Env) (column : Z) : Completion Z :=
  unit ← deref (lodash_find (units_units (getState env)) (λ o,
    bool_decide (unit_unitIndex o = column)
    && bool_decide (unit_typeOfUnit o ≠ meter)));
  mret (unit_id unit).

Definition unitsCompatibleWithUnit (env : Env) (unitId : Z)
    : Completion (list Z) :=
  let unitSet : list Z := [] in
  if bool_decide (unitId ≠ (-99)%Z) && pikAvailable (conversionArray env) then
    let pik := pik (conversionArray env) in
    row ← pRowFromUnit env unitId;
    (* [k < pik[0].length] *)
    pik0 ← deref (Array_get pik 0);
    forEach (λ unitSet k,
        pikRow ← deref (Array_get pik row);
        if default false (Array_get pikRow k) then
          u ← unitFromPColumn env k;
          mret (JSSet.add unitSet u)
        else mret unitSet)
      (seqZ 0 (Z.of_nat (length pik0))) unitSet
  else mret unitSet.

Definition unitsCompatibleWithMeters (env : Env) (meters : list Z)
    : Completion (list Z) :=
  let state := getState env in
  '(first, compatibleUnits) ← forEach (λ '(first, compatibleUnits) meterId,
      meter ← deref (Object_get (meters_byMeterID state) meterId);
      meterUnits ←
        (if bool_decide (meter_unitId meter ≠ (-99)%Z)
         then unitsCompatibleWithUnit env (meter_unitId meter)
         else mret []);
      if (first : bool) then mret (false, meterUnits)
      else mret (first, setIntersect compatibleUnits meterUnits))
    meters (true, []);
  mret compatibleUnits.

Definition metersInGroup (env : Env) (groupId : Z) : Completion (list Z) :=
  group ← deref (Object_get (groups_byGroupID (getState env)) groupId);
  mret (JSSet.of_array (group_deepMeters group)).

Definition groupCase (currentUnits newUnits : list Z)
    (defaultGraphicUnit : Z) : GroupCase :=
  let intersection := setIntersect currentUnits newUnits in
  let lostUnits := JSSet.of_array
    (List.filter (λ x, negb (JSSet.has intersection x)) currentUnits) in
  if bool_decide (JSSet.size lostUnits = 0) then NoChange
  else if bool_decide (JSSet.size lostUnits = JSSet.size currentUnits)
  then NoCompatibleUnits
  else if bool_decide (defaultGraphicUnit ≠ (-99)%Z)
          && JSSet.has lostUnits defaultGraphicUnit
  then LostDefaultGraphicUnit
  else LostCompatibleUnits.

Definition getCompatibleUnits (env : Env) (id : Z) (type : DataType)
    : Completion (list Z) :=
  if bool_decide (type = Meter) then
    meter ← deref (Object_get (meters_byMeterID (getState env)) id);
    unitsCompatibleWithUnit env (meter_unitId meter)
  else
    meters ← metersInGroup env id;
    unitsCompatibleWithMeters env meters.

Definition getCompatibilityChangeCase (env : Env) (otherUnits : list Z)
    (id : Z) (type : DataType) (defaultGraphicUnit : Z)
    : Completion GroupCase :=
  newUnits ← getCompatibleUnits env id type;
  mret (groupCase otherUnits newUnits defaultGraphicUnit).

Definition getMeterMenuOptionsForGroup (env : Env) (gid : Z)
    : Completion (list SelectOption) :=
  let state := getState env in
  meters0 ← metersInGroup env gid;
  currentUnits ← unitsCompatibleWithMeters env meters0;
  group ← deref (Object_get (groups_byGroupID state) gid);
  let defaultGraphicUnit := group_defaultGraphicUnit group in
  let meters := Object_values (meters_byMeterID state) in
  forEach (λ options meter,
      compatibilityChangeCase ← getCompatibilityChangeCase env currentUnits
        (meter_id meter) Meter defaultGraphicUnit;
      let option :=
        mkSelectOption (meter_identifier meter) (meter_id meter) false None in
      let option :=
        if bool_decide (compatibilityChangeCase = NoCompatibleUnits)
        then set_isDisabled true option
        else option in
      mret (options ++ [option]))
    meters [].

Definition getGroupMenuOptionsForGroup (env : Env) (gid : Z)
    : Completion (list SelectOption) :=
  let state := getState env in
  meters0 ← metersInGroup env gid;
  currentUnits ← unitsCompatibleWithMeters env meters0;
  group0 ← deref (Object_get (groups_byGroupID state) gid);
  let defaultGraphicUnit := group_defaultGraphicUnit group0 in
  let groups := Object_values (groups_byGroupID state) in
  forEach (λ options group,
      compatibilityChangeCase ← getCompatibilityChangeCase env currentUnits
        (group_id group) Meter defaultGraphicUnit;
      let option :=
        mkSelectOption (group_name group) (group_id group) false None in
      let option :=
        if bool_decide (compatibilityChangeCase = NoCompatibleUnits)
        then set_isDisabled true option
        else option in
      mret (options ++ [option]))
    groups [].

End Rev1.

(** ** Second revision (lines 294-653) *)

Module Rev2.

Definition setIntersect (setA setB : list Z) : list Z :=
  JSSet.of_array (List.filter (λ i, JSSet.has setB i) setA).

Definition pRowFromUnit (env : Env) (unitId : Z) : Completion Z :=
  unit ← deref (lodash_find (units_units (getState env)) (λ o,
    bool_decide (unit_id o = unitId)
    && bool_decide (unit_typeOfUnit o = meter)));
  mret (unit_unitIndex unit).

Definition unitFromPRow (env : Env) (row : Z) : Completion Z :=
  unit ← deref (lodash_find (units_units (getState env)) (λ o,
    bool_decide (unit_unitIndex o = row)
    && bool_decide (unit_typeOfUnit o = meter)));
  mret (unit_id unit).

Definition unitFromPColumn (env : Env) (column : Z) : Completion Z :=
  unit ← deref (lodash_find (units_units (getState env)) (λ o,
    bool_decide (unit_unitIndex o = column)
    && bool_decide (unit_typeOfUnit o ≠ meter)));
  mret (unit_id unit).

Definition unitsCompatibleWithUnit (env : Env) (unitId : Z)
    : Completion (list Z) :=
  let unitSet : list Z := [] in
  if bool_decide (unitId ≠ (-99)%Z) && pikAvailable (conversionArray env) then
    let pik := pik (conversionArray env) in
    row ← pRowFromUnit env unitId;
    (* [k < pik[0].length] *)
    pik0 ← deref (Array_get pik 0);
    forEach (λ unitSet k,
        pikRow ← deref (Array_get pik row);
        if default false (Array_get pikRow k) then
          u ← unitFromPColumn env k;
          mret (JSSet.add unitSet u)
        else mret unitSet)
      (seqZ 0 (Z.of_nat (length pik0))) unitSet
  else mret unitSet.

Definition unitsCompatibleWithMeters (env : Env) (meters : list Z)
    : Completion (list Z) :=
  let state := getState env in
  '(first, compatibleUnits) ← forEach (λ '(first, compatibleUnits) meterId,
      meter ← deref (Object_get (meters_byMeterID state) meterId);
      meterUnits ←
        (if bool_decide (meter_unitId meter ≠ (-99)%Z)
         then unitsCompatibleWithUnit env (meter_unitId meter)
         else mret []);
      if (first : bool) then mret (false, meterUnits)
      else mret (first, setIntersect compatibleUnits meterUnits))
    meters (true, []);
  mret compatibleUnits.

Definition metersInGroup (env : Env) (groupId : Z) : Completion (list Z) :=
  group ← deref (Object_get (groups_byGroupID (getState env)) groupId);
  mret (JSSet.of_array (group_deepMeters group)).

Definition groupCase (currentUnits newUnits : list Z)
    (defaultGraphicUnit : Z) : GroupCase :=
  let intersection := setIntersect currentUnits newUnits in
  let lostUnits := JSSet.of_array
    (List.filter (λ x, negb (JSSet.has intersection x)) currentUnits) in
  if bool_decide (JSSet.size lostUnits = 0) then NoChange
  else if bool_decide (JSSet.size lostUnits = JSSet.size currentUnits)
  then NoCompatibleUnits
  else if bool_decide (defaultGraphicUnit ≠ (-99)%Z)
          && JSSet.has lostUnits defaultGraphicUnit
  then LostDefaultGraphicUnit
  else LostCompatibleUnits.

Definition getCompatibleUnits (env : Env) (id : Z) (type : DataType)
    : Completion (list Z) :=
  if bool_decide (type = Meter) then
    meter ← deref (Object_get (meters_byMeterID (getState env)) id);
    unitsCompatibleWithUnit env (meter_unitId meter)
  else
    meters ← metersInGroup env id;
    unitsCompatibleWithMeters env meters.

Definition getCompatibilityChangeCase (env : Env) (otherUnits : list Z)
    (id : Z) (type : DataType) (defaultGraphicUnit : Z)
    : Completion GroupCase :=
  newUnits ← getCompatibleUnits env id type;
  mret (groupCase otherUnits newUnits defaultGraphicUnit).

Definition getMenuOptionFont (compatibilityChangeCase : GroupCase)
    : CSSProperties :=
  match compatibilityChangeCase with
  | NoChange => [("color", "black")]
  | LostCompatibleUnits => [("color", "yellow")]
  | LostDefaultGraphicUnit => [("color", "red")]
  | _ => []
  end.

Definition getMeterMenuOptionsForGroup (env : Env) (gid : Z)
    : Completion (list SelectOption) :=
  let state := getState env in
  meters0 ← metersInGroup env gid;
  currentUnits ← unitsCompatibleWithMeters env meters0;
  group ← deref (Object_get (groups_byGroupID state) gid);
  let defaultGraphicUnit := group_defaultGraphicUnit group in
  let meters := Object_values (meters_byMeterID state) in
  forEach (λ options meter,
      compatibilityChangeCase ← getCompatibilityChangeCase env currentUnits
        (meter_id meter) Meter defaultGraphicUnit;
      let option :=
        mkSelectOption (meter_identifier meter) (meter_id meter) false
          (Some []) in
      let option :=
        if bool_decide (compatibilityChangeCase = NoCompatibleUnits)
        then set_isDisabled true option
        else set_style (getMenuOptionFont compatibilityChangeCase) option in
      mret (options ++ [option]))
    meters [].

Definition getGroupMenuOptionsForGroup (env : Env) (gid : Z)
    : Completion (list SelectOption) :=
  let state := getState env in
  meters0 ← metersInGroup env gid;
  currentUnits ← unitsCompatibleWithMeters env meters0;
  group0 ← deref (Object_get (groups_byGroupID state) gid);
  let defaultGraphicUnit := group_defaultGraphicUnit group0 in
  let groups := Object_values (groups_byGroupID state) in
  forEach (λ options group,
      compatibilityChangeCase ← getCompatibilityChangeCase env currentUnits
        (group_id group) Group defaultGraphicUnit;
      let option :=
        mkSelectOption (group_name group) (group_id group) false
          (Some []) in
      let option :=
        if bool_decide (compatibilityChangeCase = NoCompatibleUnits)
        then set_isDisabled true option
        else set_style (getMenuOptionFont compatibilityChangeCase) option in
      mret (options ++ [option]))
    groups [].


(** The body computes the group's units and returns the still empty
    message; the rest of the function is commented-out pseudocode. *)
Definition getGroupPostUpdateDiagnostics (env : Env) (gid : Z)
    : Completion string :=
  meters0 ← metersInGroup env gid;
  currentUnits ← unitsCompatibleWithMeters env meters0;
  let msg := "" in
  mret msg.

End Rev2.

(** * Auxiliary definitions for the statements *)

(** The units that go away, as [groupCase] computes them. *)
Definition lostUnits (currentUnits newUnits : list Z) : list Z :=
  JSSet.of_array
    (List.filter (λ x, negb (JSSet.has (Rev2.setIntersect currentUnits newUnits) x))
       currentUnits).

(** The spec's words: [lost = currentUnits − (currentUnits ∩ newUnits)]. *)
Definition lost_spec (currentUnits newUnits : list Z) : list Z :=
  list_difference currentUnits (list_intersection currentUnits newUnits).

(** The spec's decision table, first match wins. *)
Definition groupCase_spec (currentUnits newUnits : list Z) (defaultUnit : Z)
    : GroupCase :=
  let lost := lost_spec currentUnits newUnits in
  if decide (lost = []) then NoChange
  else if decide (lost = currentUnits) then NoCompatibleUnits
  else if decide (defaultUnit ≠ (-99)%Z ∧ defaultUnit ∈ lost)
  then LostDefaultGraphicUnit
  else LostCompatibleUnits.

(** The value the loop body of [unitsCompatibleWithMeters] gives its local
    [meterUnits] for one meter id. *)
Definition meterUnits (env : Env) (meterId : Z) : Completion (list Z) :=
  meter ← deref (Object_get (meters_byMeterID (getState env)) meterId);
  if bool_decide (meter_unitId meter ≠ (-99)%Z)
  then Rev2.unitsCompatibleWithUnit env (meter_unitId meter)
  else mret [].

(** The body of the loop of [unitsCompatibleWithMeters], on the variables
    [first] and [compatibleUnits] it assigns. *)
Definition metersLoopBody (env : Env) : bool * list Z → Z → Completion (bool * list Z) :=
  λ '(first, compatibleUnits) meterId,
    meter ← deref (Object_get (meters_byMeterID (getState env)) meterId);
    units ←
      (if bool_decide (meter_unitId meter ≠ (-99)%Z)
       then Rev2.unitsCompatibleWithUnit env (meter_unitId meter)
       else mret []);
    if (first : bool) then mret (false, units)
    else mret (first, Rev2.setIntersect compatibleUnits units).

(** The loop of [unitsCompatibleWithMeters] once [first] is [false]: every
    further meter is intersected into the accumulator. *)
Definition intersectMeters (env : Env) (compatibleUnits : list Z)
    (meters : list Z) : Completion (list Z) :=
  forEach (λ compatibleUnits meterId,
      units ← meterUnits env meterId;
      mret (Rev2.setIntersect compatibleUnits units))
    meters compatibleUnits.

(** [pik[row][k]] is [true]. *)
Definition pik_true (env : Env) (row k : Z) : Prop :=
  ∃ pikRow, Array_get (pik (conversionArray env)) row = Some pikRow
            ∧ Array_get pikRow k = Some true.

(** [k] is a column of the relation: the resolver takes the columns from
    the relation's first row, [0 <= k < pik[0].length]. *)
Definition pik_column (env : Env) (k : Z) : Prop :=
  ∃ pik0, Array_get (pik (conversionArray env)) 0 = Some pik0
          ∧ (0 ≤ k < Z.of_nat (length pik0))%Z.

(** [unitId] is the id of a meter-typed unit of the catalog, and [column]
    the index of a unit of another type. *)
Definition meter_unit_in_catalog (env : Env) (unitId : Z) : Prop :=
  ∃ o, o ∈ units_units (getState env)
       ∧ unit_id o = unitId ∧ unit_typeOfUnit o = meter.

Definition column_unit_in_catalog (env : Env) (column : Z) : Prop :=
  ∃ o, o ∈ units_units (getState env)
       ∧ unit_unitIndex o = column ∧ unit_typeOfUnit o ≠ meter.

(** The baseline of a menu for group [gid]: the units compatible with the
    group's deep meters and the group's default graphic unit. *)
Definition group_baseline (env : Env) (gid : Z) (currentUnits : list Z)
    (defaultGraphicUnit : Z) : Prop :=
  ∃ meters group,
    Rev2.metersInGroup env gid = Return meters
    ∧ Rev2.unitsCompatibleWithMeters env meters = Return currentUnits
    ∧ Object_get (groups_byGroupID (getState env)) gid = Some group
    ∧ defaultGraphicUnit = group_defaultGraphicUnit group.

(** What a menu owes its candidates: when it is returned it holds one option
    per candidate, in order, carrying the candidate's id and disabled exactly
    when the candidate's classification is [NoCompatibleUnits]; and it is
    returned whenever the baseline and every classification are. *)
Definition menu_follows_classifier {A : Type} (env : Env) (gid : Z)
    (candidates : list A) (idOf : A → Z)
    (classify : list Z → Z → A → Completion GroupCase)
    (menu : Completion (list SelectOption)) : Prop :=
  (∀ options, menu = Return options →
     ∃ currentUnits defaultGraphicUnit,
       group_baseline env gid currentUnits defaultGraphicUnit
       ∧ Forall2 (λ a option,
           value option = idOf a
           ∧ ∃ c, classify currentUnits defaultGraphicUnit a = Return c
                  ∧ (isDisabled option = true ↔ c = NoCompatibleUnits))
           candidates options)
  ∧ (∀ currentUnits defaultGraphicUnit,
       group_baseline env gid currentUnits defaultGraphicUnit →
       Forall (λ a, ∃ c, classify currentUnits defaultGraphicUnit a = Return c)
         candidates →
       ∃ options, menu = Return options).

(** No two units of the catalog share an id. *)
Definition unit_ids_unique (env : Env) : Prop :=
  NoDup (unit_id <$> units_units (getState env)).

(** Two sets hold the same elements. *)
Definition same_set (s1 s2 : list Z) : Prop := ∀ x, x ∈ s1 ↔ x ∈ s2.

(** ** A small site

    Two meter units (ids 1 and 2, rows 0 and 1) and three other units
    (ids 5, 6 and 7, columns 0, 1 and 2); unit 1 converts to 5 and 7, unit 2
    to 6. Meters 1 and 4 have unit 1, meter 2 has unit 2 and meter 3 has no
    unit. Group 3 holds meters of both units. *)
Definition site_units : list UnitData :=
  [ mkUnitData 1 0 meter; mkUnitData 2 1 meter;
    mkUnitData 5 0 (otherUnitType "unit");
    mkUnitData 6 1 (otherUnitType "unit");
    mkUnitData 7 2 (otherUnitType "suffix") ].

Definition site_meters : list (Z * MeterData) :=
  [ (1%Z, mkMeterData 1 "m1" 1); (2%Z, mkMeterData 2 "m2" 2);
    (3%Z, mkMeterData 3 "m3" (-99)); (4%Z, mkMeterData 4 "m4" 1) ].

Definition site_groups : list (Z * GroupDefinition) :=
  [ (1%Z, mkGroupDefinition 1 "g1" [1%Z] 5);
    (2%Z, mkGroupDefinition 2 "g2" [1%Z] (-99));
    (3%Z, mkGroupDefinition 3 "g3" [1%Z; 2%Z] (-99)) ].

Definition site_pik : list (list bool) :=
  [ [true; false; true]; [false; true; false] ].

Definition site : Env :=
  mkEnv (mkState site_meters site_units site_groups)
        (mkConversionArray true site_pik).

(** The same site before the relation has arrived. *)
Definition site_loading : Env :=
  mkEnv (mkState site_meters site_units site_groups)
        (mkConversionArray false []).

(** The site with the unit of column 2 missing from the catalog. *)
Definition site_broken : Env :=
  mkEnv (mkState site_meters (take 4 site_units) site_groups)
        (mkConversionArray true site_pik).

(** ** Further notions used in the statements *)

(** No two meter-typed units of the catalog share a row index, and no two
    share an id. *)
Definition meter_rows_unique (env : Env) : Prop :=
  ∀ o1 o2, o1 ∈ units_units (getState env) → o2 ∈ units_units (getState env) →
    unit_typeOfUnit o1 = meter → unit_typeOfUnit o2 = meter →
    unit_unitIndex o1 = unit_unitIndex o2 → unit_id o1 = unit_id o2.

Definition meter_ids_unique (env : Env) : Prop :=
  ∀ o1 o2, o1 ∈ units_units (getState env) → o2 ∈ units_units (getState env) →
    unit_typeOfUnit o1 = meter → unit_typeOfUnit o2 = meter →
    unit_id o1 = unit_id o2 → unit_unitIndex o1 = unit_unitIndex o2.

(** What each outcome of the classifier says about the two sets and the
    default unit, in terms of membership only. *)
Definition outcome_condition (currentUnits newUnits : list Z)
    (defaultGraphicUnit : Z) (c : GroupCase) : Prop :=
  match c with
  | NoChange => ∀ x, x ∈ currentUnits → x ∈ newUnits
  | NoCompatibleUnits =>
      (∃ x, x ∈ currentUnits) ∧ (∀ x, x ∈ currentUnits → x ∉ newUnits)
  | LostDefaultGraphicUnit =>
      (∃ x, x ∈ currentUnits ∧ x ∈ newUnits)
      ∧ defaultGraphicUnit ≠ (-99)%Z
      ∧ defaultGraphicUnit ∈ currentUnits ∧ defaultGraphicUnit ∉ newUnits
  | LostCompatibleUnits =>
      (∃ x, x ∈ currentUnits ∧ x ∉ newUnits)
      ∧ (∃ x, x ∈ currentUnits ∧ x ∈ newUnits)
      ∧ (defaultGraphicUnit = (-99)%Z ∨ defaultGraphicUnit ∉ currentUnits
         ∨ defaultGraphicUnit ∈ newUnits)
  end.

(** [row] is the index of a meter-typed unit of the catalog. *)
Definition row_unit_in_catalog (env : Env) (row : Z) : Prop :=
  ∃ o, o ∈ units_units (getState env)
       ∧ unit_unitIndex o = row ∧ unit_typeOfUnit o = meter.

(** The body of the loop of [unitsCompatibleWithUnit] over the columns, for
    the row of the unit, on the variable [unitSet] it updates. *)
Definition unitLoopBody (env : Env) (row : Z) : list Z → Z → Completion (list Z) :=
  λ unitSet k,
    pikRow ← deref (Array_get (pik (conversionArray env)) row);
    if default false (Array_get pikRow k) then
      u ← Rev2.unitFromPColumn env k;
      mret (JSSet.add unitSet u)
    else mret unitSet.

(** The option the second revision's menus push for a candidate with the
    given label and id, once its case is known. *)
Definition menuOption (lbl : string) (id : Z) (c : GroupCase) : SelectOption :=
  let option := mkSelectOption lbl id false (Some []) in
  if bool_decide (c = NoCompatibleUnits)
  then set_isDisabled true option
  else set_style (Rev2.getMenuOptionFont c) option.

(** How an option of the second revision's menus shows a case. *)
Definition option_shows (c : GroupCase) (o : SelectOption) : Prop :=
  match c with
  | NoChange => isDisabled o = false ∧ style o = Some [("color", "black")]
  | LostCompatibleUnits =>
      isDisabled o = false ∧ style o = Some [("color", "yellow")]
  | LostDefaultGraphicUnit =>
      isDisabled o = false ∧ style o = Some [("color", "red")]
  | NoCompatibleUnits => isDisabled o = true ∧ style o = Some []
  end.

(** An option without its [style] property, as the first revision builds
    it. *)
Definition without_style (o : SelectOption) : SelectOption :=
  mkSelectOption (label o) (value o) (isDisabled o) None.

(** A site whose relation is flagged available but holds no row. *)
Definition site_no_rows : Env :=
  mkEnv (mkState site_meters site_units site_groups)
        (mkConversionArray true []).

(** * Facts about the embedding *)

(** ** Completions *)

Lemma bind_Return_inv {A B : Type} (c : Completion A) (f : A → Completion B) b :
  (c ≫= f) = Return b ↔ ∃ a, c = Return a ∧ f a = Return b.
Proof.
  destruct c as [a|e]; simpl; split.
  - intros H. by exists a.
  - by intros (a' & [= ->] & H).
  - done.
  - by intros (a' & ? & _).
Qed.

Lemma deref_Return_inv {A : Type} (o : option A) a :
  deref o = Return a ↔ o = Some a.
Proof. destruct o; simpl; split; congruence. Qed.

Lemma forEach_app {A S : Type} (body : S → A → Completion S) l1 l2 s :
  forEach body (l1 ++ l2) s = (forEach body l1 s ≫= forEach body l2).
Proof.
  revert s. induction l1 as [|x l1 IH]; intros s; simpl; [done|].
  destruct (body s x) as [s'|e]; simpl; [apply IH|done].
Qed.

(** ** Sets *)

Lemma has_true s x : JSSet.has s x = true ↔ x ∈ s.
Proof. unfold JSSet.has. apply bool_decide_eq_true. Qed.

Lemma has_false s x : JSSet.has s x = false ↔ x ∉ s.
Proof. unfold JSSet.has. apply bool_decide_eq_false. Qed.

Lemma elem_of_add s y x : x ∈ JSSet.add s y ↔ x ∈ s ∨ x = y.
Proof.
  unfold JSSet.add. destruct (JSSet.has s y) eqn:E.
  - apply has_true in E. split; [by left|]. intros [?| ->]; done.
  - rewrite elem_of_app, list_elem_of_singleton. done.
Qed.

Lemma NoDup_add s y : NoDup s → NoDup (JSSet.add s y).
Proof.
  intros Hs. unfold JSSet.add. destruct (JSSet.has s y) eqn:E; [done|].
  apply has_false in E. apply NoDup_app. split_and!; [done| |apply NoDup_singleton].
  intros x Hx ->%list_elem_of_singleton. done.
Qed.

Lemma foldl_add_NoDup acc a : NoDup (acc ++ a) → foldl JSSet.add acc a = acc ++ a.
Proof.
  revert acc. induction a as [|x a IH]; intros acc Hnd; simpl.
  - by rewrite app_nil_r.
  - assert (JSSet.add acc x = acc ++ [x]) as ->.
    { unfold JSSet.add. destruct (JSSet.has acc x) eqn:E; [|done].
      apply has_true in E. apply NoDup_app in Hnd as (_ & Hd & _).
      destruct (Hd x E). by left. }
    rewrite IH; rewrite <- app_assoc; done.
Qed.

Lemma foldl_add_elem_of acc a x : x ∈ foldl JSSet.add acc a ↔ x ∈ acc ∨ x ∈ a.
Proof.
  revert acc. induction a as [|y a IH]; intros acc; simpl.
  - rewrite elem_of_nil. tauto.
  - rewrite IH, elem_of_add, elem_of_cons. tauto.
Qed.

Lemma foldl_add_NoDup_acc acc a : NoDup acc → NoDup (foldl JSSet.add acc a).
Proof.
  revert acc. induction a as [|y a IH]; intros acc Hnd; simpl; [done|].
  apply IH, NoDup_add, Hnd.
Qed.

(** [new Set(a)] holds the elements of [a], once each; an array without
    repetitions is kept as it is. *)
Lemma of_array_elem_of a x : x ∈ JSSet.of_array a ↔ x ∈ a.
Proof. unfold JSSet.of_array. rewrite foldl_add_elem_of, elem_of_nil. tauto. Qed.

Lemma of_array_NoDup a : NoDup (JSSet.of_array a).
Proof. apply foldl_add_NoDup_acc, NoDup_nil_2. Qed.

Lemma of_array_id a : NoDup a → JSSet.of_array a = a.
Proof. intros H. unfold JSSet.of_array. by rewrite foldl_add_NoDup. Qed.

Lemma List_filter_elem_of (p : Z → bool) l x :
  x ∈ List.filter p l ↔ x ∈ l ∧ p x = true.
Proof. rewrite !list_elem_of_In. apply filter_In. Qed.

Lemma List_filter_NoDup (p : Z → bool) l : NoDup l → NoDup (List.filter p l).
Proof.
  induction 1 as [|x l Hx Hl IH]; simpl; [constructor|].
  destruct (p x); [|done]. constructor; [|done].
  rewrite List_filter_elem_of. tauto.
Qed.

Lemma List_filter_length_le (p : Z → bool) l :
  length (List.filter p l) ≤ length l.
Proof. induction l as [|x l IH]; simpl; [lia|]. destruct (p x); simpl; lia. Qed.

Lemma List_filter_length_eq (p : Z → bool) l :
  length (List.filter p l) = length l ↔ ∀ x, x ∈ l → p x = true.
Proof.
  induction l as [|x l IH]; simpl.
  - split; [|done]. intros _ x Hx. by apply elem_of_nil in Hx.
  - pose proof (List_filter_length_le p l) as Hle.
    destruct (p x) eqn:E; simpl.
    + split.
      * intros [= H] y [->|Hy]%elem_of_cons; [done|]. by apply IH.
      * intros H. f_equal. apply IH. intros y Hy. apply H. by right.
    + split; [lia|]. intros H. specialize (H x (list_elem_of_here _ _)). congruence.
Qed.

Lemma List_filter_nil_iff (p : Z → bool) l :
  List.filter p l = [] ↔ ∀ x, x ∈ l → p x = false.
Proof.
  induction l as [|x l IH]; simpl.
  - split; [|done]. intros _ x Hx. by apply elem_of_nil in Hx.
  - destruct (p x) eqn:E.
    + split; [done|]. intros H. specialize (H x (list_elem_of_here _ _)). congruence.
    + rewrite IH. split.
      * intros H y [->|Hy]%elem_of_cons; auto.
      * intros H y Hy. apply H. by right.
Qed.

Lemma List_filter_id_iff (p : Z → bool) l :
  List.filter p l = l ↔ ∀ x, x ∈ l → p x = true.
Proof.
  rewrite <- List_filter_length_eq. split; [by intros ->|].
  induction l as [|x l IH]; simpl; [done|].
  pose proof (List_filter_length_le p l). destruct (p x); simpl; [|lia].
  intros [= H']. f_equal. by apply IH.
Qed.

Lemma List_filter_difference (p : Z → bool) l k :
  (∀ x, x ∈ l → (p x = true ↔ x ∉ k)) → List.filter p l = list_difference l k.
Proof.
  induction l as [|x l IH]; intros Hp; simpl; [done|].
  rewrite IH by (intros y Hy; apply Hp; by right).
  specialize (Hp x (list_elem_of_here _ _)).
  destruct (decide_rel elem_of x k) as [Hin|Hin], (p x) eqn:E; try done.
  - destruct Hp as [Hp _]. by destruct Hp.
  - destruct Hp as [_ Hp]. specialize (Hp Hin). congruence.
Qed.

(** ** The two revisions define the same functions *)

Lemma rev_setIntersect A B : Rev1.setIntersect A B = Rev2.setIntersect A B.
Proof. reflexivity. Qed.

Lemma rev_groupCase cur new d : Rev1.groupCase cur new d = Rev2.groupCase cur new d.
Proof. reflexivity. Qed.

Lemma rev_unitsCompatibleWithUnit env u :
  Rev1.unitsCompatibleWithUnit env u = Rev2.unitsCompatibleWithUnit env u.
Proof. reflexivity. Qed.

Lemma rev_unitsCompatibleWithMeters env ms :
  Rev1.unitsCompatibleWithMeters env ms = Rev2.unitsCompatibleWithMeters env ms.
Proof. reflexivity. Qed.

Lemma rev_metersInGroup env g : Rev1.metersInGroup env g = Rev2.metersInGroup env g.
Proof. reflexivity. Qed.

Lemma rev_getCompatibleUnits env i t :
  Rev1.getCompatibleUnits env i t = Rev2.getCompatibleUnits env i t.
Proof. reflexivity. Qed.

Lemma rev_getCompatibilityChangeCase env cur i t d :
  Rev1.getCompatibilityChangeCase env cur i t d
  = Rev2.getCompatibilityChangeCase env cur i t d.
Proof. reflexivity. Qed.

(** ** Set intersection *)

Lemma elem_of_setIntersect A B x : x ∈ Rev2.setIntersect A B ↔ x ∈ A ∧ x ∈ B.
Proof.
  unfold Rev2.setIntersect.
  by rewrite of_array_elem_of, List_filter_elem_of, has_true.
Qed.

Lemma setIntersect_NoDup A B : NoDup (Rev2.setIntersect A B).
Proof. apply of_array_NoDup. Qed.

Lemma setIntersect_nil_l B : Rev2.setIntersect [] B = [].
Proof. reflexivity. Qed.

Lemma setIntersect_nil_r A : Rev2.setIntersect A [] = [].
Proof.
  unfold Rev2.setIntersect.
  assert (List.filter (λ i, JSSet.has [] i) A = []) as ->; [|done].
  apply List_filter_nil_iff. intros x _. apply has_false, not_elem_of_nil.
Qed.

(** ** The classifier *)

Lemma groupCase_unfold cur new d :
  Rev2.groupCase cur new d =
    if bool_decide (length (lostUnits cur new) = 0) then NoChange
    else if bool_decide (length (lostUnits cur new) = length cur)
    then NoCompatibleUnits
    else if bool_decide (d ≠ (-99)%Z) && JSSet.has (lostUnits cur new) d
    then LostDefaultGraphicUnit
    else LostCompatibleUnits.
Proof. reflexivity. Qed.

Lemma lostUnits_filter cur new :
  NoDup cur →
  lostUnits cur new = List.filter (λ x, negb (JSSet.has new x)) cur.
Proof.
  intros Hnd. unfold lostUnits. rewrite of_array_id by by apply List_filter_NoDup.
  apply List.filter_ext_in. intros x Hx%list_elem_of_In. f_equal.
  apply bool_decide_ext. rewrite elem_of_setIntersect. tauto.
Qed.

Lemma elem_of_lostUnits cur new x : x ∈ lostUnits cur new ↔ x ∈ cur ∧ x ∉ new.
Proof.
  unfold lostUnits. rewrite of_array_elem_of, List_filter_elem_of.
  rewrite negb_true_iff, has_false, elem_of_setIntersect. tauto.
Qed.

Lemma lostUnits_spec cur new : NoDup cur → lostUnits cur new = lost_spec cur new.
Proof.
  intros Hnd. rewrite lostUnits_filter by done. unfold lost_spec.
  apply List_filter_difference. intros x Hx.
  rewrite negb_true_iff, has_false, list_elem_of_intersection. tauto.
Qed.

Lemma groupCase_refines_spec cur new d :
  NoDup cur → Rev2.groupCase cur new d = groupCase_spec cur new d.
Proof.
  intros Hnd. rewrite groupCase_unfold. unfold groupCase_spec.
  rewrite <- lostUnits_spec by done.
  assert (length (lostUnits cur new) = length cur ↔ lostUnits cur new = cur) as Hlen.
  { rewrite lostUnits_filter by done.
    by rewrite List_filter_length_eq, List_filter_id_iff. }
  assert (length (lostUnits cur new) = 0 ↔ lostUnits cur new = []) as Hnil.
  { by destruct (lostUnits cur new). }
  revert Hlen Hnil. generalize (lostUnits cur new). intros lost Hlen Hnil.
  destruct (decide (lost = [])) as [H0|H0].
  { by rewrite bool_decide_eq_true_2 by by apply Hnil. }
  rewrite bool_decide_eq_false_2 by by rewrite Hnil.
  destruct (decide (lost = cur)) as [H1|H1].
  { by rewrite bool_decide_eq_true_2 by by apply Hlen. }
  rewrite bool_decide_eq_false_2 by by rewrite Hlen.
  destruct (decide (d ≠ (-99)%Z ∧ d ∈ lost)) as [[Ha Hb]|Hn].
  - rewrite bool_decide_eq_true_2 by done. simpl.
    by rewrite (proj2 (has_true _ _) Hb).
  - destruct (bool_decide (d ≠ (-99)%Z)) eqn:E1; simpl; [|done].
    destruct (JSSet.has lost d) eqn:E2; [|done].
    apply bool_decide_eq_true in E1. apply has_true in E2. tauto.
Qed.

(** ** Sanity checks on the small site *)

Example site_unit_1 : Rev2.unitsCompatibleWithUnit site 1 = Return [5%Z; 7%Z].
Proof. reflexivity. Qed.

Example site_unit_2 : Rev1.unitsCompatibleWithUnit site 2 = Return [6%Z].
Proof. reflexivity. Qed.

Example site_group_3 :
  (Rev2.metersInGroup site 3 ≫= Rev2.unitsCompatibleWithMeters site) = Return [].
Proof. reflexivity. Qed.

(** Scenarios 1 to 4 of the specification. *)
Example scenario_1 :
  Rev2.groupCase [1%Z; 2%Z; 3%Z] [2%Z; 3%Z; 4%Z] (-99) = LostCompatibleUnits.
Proof. reflexivity. Qed.

Example scenario_2 :
  Rev2.groupCase [1%Z; 2%Z; 3%Z] [2%Z; 3%Z; 4%Z] 1 = LostDefaultGraphicUnit.
Proof. reflexivity. Qed.

Example scenario_3 : Rev2.groupCase [1%Z; 2%Z; 3%Z] [] 1 = NoCompatibleUnits.
Proof. reflexivity. Qed.

Example scenario_4 :
  Rev2.groupCase [1%Z; 2%Z; 3%Z] [1%Z; 2%Z; 3%Z; 4%Z] 1 = NoChange.
Proof. reflexivity. Qed.

(** ** Loops *)

Lemma forEach_Throw {A S : Type} (body : S → A → Completion S) l x s :
  x ∈ l → (∀ s', body s' x = Throw TypeError) →
  forEach body l s = Throw TypeError.
Proof.
  intros Hx Hbody. revert s.
  induction l as [|y l IH]; intros s; [by apply elem_of_nil in Hx|].
  apply elem_of_cons in Hx as [<-|Hx]; simpl.
  - by rewrite Hbody.
  - destruct (body s y) as [s'|[]]; simpl; [by apply IH|done].
Qed.

Lemma forEach_invariant {A S : Type} (P : S → Prop)
    (body : S → A → Completion S) l s r :
  P s →
  (∀ s0 x s1, x ∈ l → P s0 → body s0 x = Return s1 → P s1) →
  forEach body l s = Return r → P r.
Proof.
  revert s. induction l as [|y l IH]; intros s Hs Hbody; simpl.
  - by intros [= <-].
  - intros (s' & Hy & Hrest)%bind_Return_inv.
    apply (IH s'); [|intros s0 x s1 Hx; apply Hbody; by right|done].
    eapply Hbody; [by left|exact Hs|exact Hy].
Qed.

Lemma forEach_Return {A S : Type} (body : S → A → Completion S) l s :
  (∀ s0 x, x ∈ l → ∃ s1, body s0 x = Return s1) →
  ∃ r, forEach body l s = Return r.
Proof.
  revert s. induction l as [|y l IH]; intros s Hbody; simpl; [by eexists|].
  destruct (Hbody s y) as [s1 ->]; [by left|]. simpl.
  apply IH. intros s0 x Hx. apply Hbody. by right.
Qed.

(** ** Lookups in the unit catalog *)

Lemma lodash_find_None {A : Type} (coll : list A) (pred : A → bool) :
  lodash_find coll pred = None ↔ ∀ x, x ∈ coll → pred x = false.
Proof.
  unfold lodash_find. induction coll as [|y coll IH]; simpl.
  - split; [|done]. intros _ x Hx. by apply elem_of_nil in Hx.
  - destruct (pred y) eqn:E.
    + split; [done|]. intros H. specialize (H y (list_elem_of_here _ _)). congruence.
    + rewrite IH. split.
      * intros H x [->|Hx]%elem_of_cons; auto.
      * intros H x Hx. apply H. by right.
Qed.

Lemma lodash_find_Some {A : Type} (coll : list A) (pred : A → bool) o :
  lodash_find coll pred = Some o → o ∈ coll ∧ pred o = true.
Proof. unfold lodash_find. rewrite list_elem_of_In. apply find_some. Qed.

Lemma pRowFromUnit_Throw env unitId :
  ¬ meter_unit_in_catalog env unitId →
  Rev2.pRowFromUnit env unitId = Throw TypeError.
Proof.
  intros Hno. unfold Rev2.pRowFromUnit.
  destruct (lodash_find _ _) as [o|] eqn:E; [|done].
  apply lodash_find_Some in E as [Ho Hp].
  apply andb_true_iff in Hp as [H1%bool_decide_eq_true H2%bool_decide_eq_true].
  destruct Hno. by exists o.
Qed.

Lemma pRowFromUnit_Return env unitId :
  meter_unit_in_catalog env unitId →
  ∃ o, o ∈ units_units (getState env) ∧ unit_id o = unitId
       ∧ unit_typeOfUnit o = meter
       ∧ Rev2.pRowFromUnit env unitId = Return (unit_unitIndex o).
Proof.
  intros (o' & Ho' & Hid & Hty). unfold Rev2.pRowFromUnit.
  destruct (lodash_find _ _) as [o|] eqn:E.
  - apply lodash_find_Some in E as [Ho Hp].
    apply andb_true_iff in Hp as [H1%bool_decide_eq_true H2%bool_decide_eq_true].
    by exists o.
  - rewrite lodash_find_None in E. specialize (E o' Ho').
    apply andb_false_iff in E as [E%bool_decide_eq_false|E%bool_decide_eq_false];
      done.
Qed.

Lemma unitFromPColumn_Throw env column :
  ¬ column_unit_in_catalog env column →
  Rev2.unitFromPColumn env column = Throw TypeError.
Proof.
  intros Hno. unfold Rev2.unitFromPColumn.
  destruct (lodash_find _ _) as [o|] eqn:E; [|done].
  apply lodash_find_Some in E as [Ho Hp].
  apply andb_true_iff in Hp as [H1%bool_decide_eq_true H2%bool_decide_eq_true].
  destruct Hno. by exists o.
Qed.

Lemma unitFromPColumn_Return_inv env column x :
  Rev2.unitFromPColumn env column = Return x →
  ∃ o, o ∈ units_units (getState env) ∧ unit_unitIndex o = column
       ∧ unit_typeOfUnit o ≠ meter ∧ unit_id o = x.
Proof.
  unfold Rev2.unitFromPColumn.
  destruct (lodash_find _ _) as [o|] eqn:E; [|done]. simpl. intros [= <-].
  apply lodash_find_Some in E as [Ho Hp].
  apply andb_true_iff in Hp as [H1%bool_decide_eq_true H2%bool_decide_eq_true].
  by exists o.
Qed.

(** ** The unit resolver *)

Lemma unitsCompatibleWithUnit_sentinel env :
  Rev2.unitsCompatibleWithUnit env (-99) = Return [].
Proof. reflexivity. Qed.

Lemma unitsCompatibleWithUnit_not_ready env unitId :
  pikAvailable (conversionArray env) = false →
  Rev2.unitsCompatibleWithUnit env unitId = Return [].
Proof.
  intros H. unfold Rev2.unitsCompatibleWithUnit. rewrite H.
  by rewrite andb_false_r.
Qed.

(** The loop of the resolver, from the row on. *)
Lemma unitsCompatibleWithUnit_loop env unitId :
  unitId ≠ (-99)%Z → pikAvailable (conversionArray env) = true →
  Rev2.unitsCompatibleWithUnit env unitId =
    (row ← Rev2.pRowFromUnit env unitId;
     pik0 ← deref (Array_get (pik (conversionArray env)) 0);
     forEach (λ unitSet k,
         pikRow ← deref (Array_get (pik (conversionArray env)) row);
         if default false (Array_get pikRow k) then
           u ← Rev2.unitFromPColumn env k;
           mret (JSSet.add unitSet u)
         else mret unitSet)
       (seqZ 0 (Z.of_nat (length pik0))) []).
Proof.
  intros Hu Hp. unfold Rev2.unitsCompatibleWithUnit.
  by rewrite Hp, bool_decide_eq_true_2.
Qed.

Lemma unitsCompatibleWithUnit_invariant (P : list Z → Prop) env unitId s :
  P [] →
  (∀ s0 k u, P s0 → Rev2.unitFromPColumn env k = Return u → P (JSSet.add s0 u)) →
  Rev2.unitsCompatibleWithUnit env unitId = Return s → P s.
Proof.
  intros Hnil Hadd. unfold Rev2.unitsCompatibleWithUnit.
  destruct (_ && _); [|by intros [= <-]].
  intros (row & _ & (pik0 & _ & Hloop)%bind_Return_inv)%bind_Return_inv.
  revert Hloop. apply forEach_invariant; [done|].
  intros s0 k s1 _ Hs0 (pikRow & _ & Hbody)%bind_Return_inv.
  destruct (default false _).
  - apply bind_Return_inv in Hbody as (u & Hu & [= <-]). by eapply Hadd.
  - by injection Hbody as <-.
Qed.

Lemma unitsCompatibleWithUnit_NoDup env unitId s :
  Rev2.unitsCompatibleWithUnit env unitId = Return s → NoDup s.
Proof.
  apply unitsCompatibleWithUnit_invariant; [constructor|].
  intros s0 _ u H _. by apply NoDup_add.
Qed.

(** ** The meter set resolver *)

Lemma Completion_cases {A : Type} (c : Completion A) :
  (∃ a, c = Return a) ∨ c = Throw TypeError.
Proof. destruct c as [a|[]]; eauto. Qed.

Lemma unitsCompatibleWithMeters_nil env :
  Rev2.unitsCompatibleWithMeters env [] = Return [].
Proof. reflexivity. Qed.

Lemma unitsCompatibleWithMeters_eq env ms :
  Rev2.unitsCompatibleWithMeters env ms
  = ('(first, compatibleUnits) ← forEach (metersLoopBody env) ms (true, []);
     mret compatibleUnits).
Proof. reflexivity. Qed.

Lemma metersLoopBody_eq env first acc m :
  metersLoopBody env (first, acc) m
  = (units ← meterUnits env m;
     mret (false, if first then units else Rev2.setIntersect acc units)).
Proof.
  unfold metersLoopBody, meterUnits.
  destruct (Object_get _ m) as [meter|]; simpl; [|done].
  destruct (bool_decide _); simpl.
  - destruct (Rev2.unitsCompatibleWithUnit env _) as [u|e]; simpl; [|done].
    by destruct first.
  - by destruct first.
Qed.

Lemma unitsCompatibleWithMeters_loop_rest env ms acc :
  forEach (metersLoopBody env) ms (false, acc)
  = (r ← intersectMeters env acc ms; mret (false, r)).
Proof.
  unfold intersectMeters. revert acc.
  induction ms as [|m ms IH]; intros acc; [done|].
  cbn [forEach]. rewrite metersLoopBody_eq.
  destruct (meterUnits env m) as [u|e]; simpl; [apply IH|done].
Qed.

Lemma unitsCompatibleWithMeters_cons env m ms :
  Rev2.unitsCompatibleWithMeters env (m :: ms)
  = (units ← meterUnits env m; intersectMeters env units ms).
Proof.
  rewrite unitsCompatibleWithMeters_eq. cbn [forEach].
  rewrite metersLoopBody_eq.
  destruct (meterUnits env m) as [u|e]; simpl; [|done].
  rewrite unitsCompatibleWithMeters_loop_rest.
  by destruct (intersectMeters env u ms).
Qed.

Lemma meterUnits_lookup env m meter :
  Object_get (meters_byMeterID (getState env)) m = Some meter →
  meterUnits env m = Rev2.unitsCompatibleWithUnit env (meter_unitId meter).
Proof.
  intros H. unfold meterUnits. rewrite H. simpl.
  case_bool_decide as Hs; [done|]. by rewrite Hs.
Qed.

Lemma meterUnits_NoDup env m u : meterUnits env m = Return u → NoDup u.
Proof.
  unfold meterUnits. destruct (Object_get _ m) as [meter|]; simpl; [|done].
  destruct (bool_decide _).
  - apply unitsCompatibleWithUnit_NoDup.
  - intros [= <-]. constructor.
Qed.

Lemma intersectMeters_Return env acc ms s :
  intersectMeters env acc ms = Return s →
  (∀ m, m ∈ ms → ∃ u, meterUnits env m = Return u)
  ∧ (∀ x, x ∈ s ↔ x ∈ acc ∧ ∀ m u, m ∈ ms → meterUnits env m = Return u → x ∈ u).
Proof.
  unfold intersectMeters. revert acc.
  induction ms as [|m ms IH]; intros acc; simpl.
  - intros [= <-]. split; [by intros m ?%elem_of_nil|].
    intros x. split; [|tauto]. intros Hx. split; [done|]. by intros m u ?%elem_of_nil.
  - intros (acc' & (u & Hu & [= <-])%bind_Return_inv & Hrest)%bind_Return_inv.
    apply IH in Hrest as [Hall Hmem]. split.
    + intros m' [->|Hm']%elem_of_cons; eauto.
    + intros x. rewrite Hmem, elem_of_setIntersect. split.
      * intros [[Hacc Hxu] Hrest]. split; [done|].
        intros m' u' [->|Hm']%elem_of_cons Hu'; [congruence|eauto].
      * intros [Hacc Hrest]. split_and!; [done| |].
        -- apply (Hrest m u); [by left|done].
        -- intros m' u' Hm'. apply Hrest. by right.
Qed.

Lemma intersectMeters_returns env acc ms :
  (∀ m, m ∈ ms → ∃ u, meterUnits env m = Return u) →
  ∃ s, intersectMeters env acc ms = Return s.
Proof.
  intros Hall. apply forEach_Return. intros s0 m Hm.
  destruct (Hall m Hm) as [u ->]. simpl. by eexists.
Qed.

Lemma intersectMeters_NoDup env acc ms s :
  NoDup acc → intersectMeters env acc ms = Return s → NoDup s.
Proof.
  intros Hacc. apply forEach_invariant; [done|].
  intros s0 m s1 _ _ (u & _ & [= <-])%bind_Return_inv. apply setIntersect_NoDup.
Qed.

(** The resolver returns exactly when every meter of the set resolves. *)
Lemma unitsCompatibleWithMeters_returns env ms :
  (∃ s, Rev2.unitsCompatibleWithMeters env ms = Return s)
  ↔ ∀ m, m ∈ ms → ∃ u, meterUnits env m = Return u.
Proof.
  destruct ms as [|m ms].
  { split; [by intros _ m ?%elem_of_nil|]. intros _. by exists []. }
  rewrite unitsCompatibleWithMeters_cons. split.
  - intros (s & (u & Hu & Hrest)%bind_Return_inv).
    apply intersectMeters_Return in Hrest as [Hall _].
    intros m' [->|Hm']%elem_of_cons; eauto.
  - intros Hall. destruct (Hall m) as [u Hu]; [by left|]. rewrite Hu. simpl.
    apply intersectMeters_returns. intros m' Hm'. apply Hall. by right.
Qed.

(** What it returns for a non-empty set is the intersection over its meters. *)
Lemma unitsCompatibleWithMeters_elem_of env ms s :
  ms ≠ [] → Rev2.unitsCompatibleWithMeters env ms = Return s →
  ∀ x, x ∈ s ↔ ∀ m u, m ∈ ms → meterUnits env m = Return u → x ∈ u.
Proof.
  destruct ms as [|m ms]; [done|]. intros _.
  rewrite unitsCompatibleWithMeters_cons.
  intros (u & Hu & Hrest)%bind_Return_inv x.
  apply intersectMeters_Return in Hrest as [_ Hmem]. rewrite Hmem. split.
  - intros [Hxu Hrest] m' u' [->|Hm']%elem_of_cons Hu'; [congruence|eauto].
  - intros H. split; [apply (H m u); [by left|done]|].
    intros m' u' Hm'. apply H. by right.
Qed.

Lemma unitsCompatibleWithMeters_NoDup env ms s :
  Rev2.unitsCompatibleWithMeters env ms = Return s → NoDup s.
Proof.
  destruct ms as [|m ms]; [intros [= <-]; constructor|].
  rewrite unitsCompatibleWithMeters_cons.
  intros (u & Hu & Hrest)%bind_Return_inv.
  eapply intersectMeters_NoDup; [|exact Hrest]. by eapply meterUnits_NoDup.
Qed.

(** ** Menus *)

Lemma menu_loop_Return {A : Type} (g : A → Completion GroupCase)
    (h : A → GroupCase → SelectOption) l acc options :
  forEach (λ options x, c ← g x; mret (options ++ [h x c])) l acc = Return options
  ↔ ∃ new, options = acc ++ new
           ∧ Forall2 (λ x o, ∃ c, g x = Return c ∧ o = h x c) l new.
Proof.
  revert acc. induction l as [|x l IH]; intros acc; simpl.
  - split.
    + intros [= <-]. exists []. by rewrite app_nil_r.
    + intros (new & -> & ->%Forall2_nil_inv_l). by rewrite app_nil_r.
  - rewrite bind_Return_inv. split.
    + intros (acc' & (c & Hc & [= <-])%bind_Return_inv & Hrest).
      apply IH in Hrest as (new & -> & Hall).
      exists (h x c :: new). rewrite <- app_assoc. split; [done|].
      constructor; [by exists c|done].
    + intros (new & -> & Hall).
      apply Forall2_cons_inv_l in Hall as (o & new' & (c & Hc & ->) & Hall & ->).
      exists (acc ++ [h x c]). rewrite Hc. split; [done|].
      apply IH. exists new'. by rewrite <- app_assoc.
Qed.

Lemma menu_follows_classifier_intro {A : Type} env gid (candidates : list A) idOf
    classify (h : A → GroupCase → SelectOption) menu :
  menu = (meters ← Rev2.metersInGroup env gid;
          currentUnits ← Rev2.unitsCompatibleWithMeters env meters;
          group ← deref (Object_get (groups_byGroupID (getState env)) gid);
          forEach (λ options a,
              c ← classify currentUnits (group_defaultGraphicUnit group) a;
              mret (options ++ [h a c]))
            candidates []) →
  (∀ a c, value (h a c) = idOf a
          ∧ (isDisabled (h a c) = true ↔ c = NoCompatibleUnits)) →
  menu_follows_classifier env gid candidates idOf classify menu.
Proof.
  intros -> Hh. split.
  - intros options (ms & Hms & (cur & Hcur & (g & Hg%deref_Return_inv & Hloop)%bind_Return_inv
      )%bind_Return_inv)%bind_Return_inv.
    exists cur, (group_defaultGraphicUnit g). split; [by exists ms, g|].
    apply menu_loop_Return in Hloop as (new & -> & Hall). simpl.
    eapply Forall2_impl; [exact Hall|]. simpl.
    intros a o (c & Hc & ->). destruct (Hh a c) as [Hv Hd]. eauto.
  - intros cur d (ms & g & Hms & Hcur & Hg & ->) Hall.
    rewrite Hms. simpl. rewrite Hcur. simpl. rewrite Hg. simpl.
    assert (∃ new, Forall2 (λ x o, ∃ c, classify cur (group_defaultGraphicUnit g) x = Return c
                                        ∧ o = h x c) candidates new) as [new Hnew].
    { clear -Hall. induction Hall as [|a l [c Hc] _ [new IH]].
      - exists []. constructor.
      - exists (h a c :: new). constructor; [by exists c|done]. }
    exists ([] ++ new). apply menu_loop_Return. by exists new.
Qed.

Lemma Rev1_meter_menu env gid :
  menu_follows_classifier env gid
    (Object_values (meters_byMeterID (getState env))) meter_id
    (λ cur d meter, Rev1.getCompatibilityChangeCase env cur (meter_id meter) Meter d)
    (Rev1.getMeterMenuOptionsForGroup env gid).
Proof.
  apply (menu_follows_classifier_intro _ _ _ _ _ (λ meter c,
    let option :=
      mkSelectOption (meter_identifier meter) (meter_id meter) false None in
    if bool_decide (c = NoCompatibleUnits)
    then set_isDisabled true option else option)); [reflexivity|].
  intros meter c. simpl. split; [by case_bool_decide|].
  case_bool_decide; simpl; split; congruence.
Qed.

Lemma Rev1_group_menu env gid :
  menu_follows_classifier env gid
    (Object_values (groups_byGroupID (getState env))) group_id
    (λ cur d group, Rev1.getCompatibilityChangeCase env cur (group_id group) Meter d)
    (Rev1.getGroupMenuOptionsForGroup env gid).
Proof.
  apply (menu_follows_classifier_intro _ _ _ _ _ (λ group c,
    let option :=
      mkSelectOption (group_name group) (group_id group) false None in
    if bool_decide (c = NoCompatibleUnits)
    then set_isDisabled true option else option)); [reflexivity|].
  intros group c. simpl. split; [by case_bool_decide|].
  case_bool_decide; simpl; split; congruence.
Qed.

Lemma Rev2_meter_menu env gid :
  menu_follows_classifier env gid
    (Object_values (meters_byMeterID (getState env))) meter_id
    (λ cur d meter, Rev2.getCompatibilityChangeCase env cur (meter_id meter) Meter d)
    (Rev2.getMeterMenuOptionsForGroup env gid).
Proof.
  apply (menu_follows_classifier_intro _ _ _ _ _ (λ meter c,
    let option :=
      mkSelectOption (meter_identifier meter) (meter_id meter) false (Some []) in
    if bool_decide (c = NoCompatibleUnits)
    then set_isDisabled true option
    else set_style (Rev2.getMenuOptionFont c) option)); [reflexivity|].
  intros meter c. simpl. split; [by case_bool_decide|].
  case_bool_decide; simpl; split; congruence.
Qed.

Lemma Rev2_group_menu env gid :
  menu_follows_classifier env gid
    (Object_values (groups_byGroupID (getState env))) group_id
    (λ cur d group, Rev2.getCompatibilityChangeCase env cur (group_id group) Group d)
    (Rev2.getGroupMenuOptionsForGroup env gid).
Proof.
  apply (menu_follows_classifier_intro _ _ _ _ _ (λ group c,
    let option :=
      mkSelectOption (group_name group) (group_id group) false (Some []) in
    if bool_decide (c = NoCompatibleUnits)
    then set_isDisabled true option
    else set_style (Rev2.getMenuOptionFont c) option)); [reflexivity|].
  intros group c. simpl. split; [by case_bool_decide|].
  case_bool_decide; simpl; split; congruence.
Qed.

(** * The classifier (claims C1, C4 and C9) *)

Lemma list_intersection_nil_iff (l k : list Z) :
  list_intersection l k = [] ↔ ∀ x, x ∈ l → x ∉ k.
Proof.
  split.
  - intros H x Hl Hk. assert (x ∈ list_intersection l k) as Hx.
    { by apply list_elem_of_intersection. }
    rewrite H in Hx. by apply elem_of_nil in Hx.
  - intros H. apply elem_of_nil_inv. intros x [Hl Hk]%list_elem_of_intersection.
    by apply (H x).
Qed.

Lemma groupCase_NoChange_iff cur new d :
  NoDup cur → Rev2.groupCase cur new d = NoChange ↔ cur ⊆ new.
Proof.
  intros Hnd. rewrite groupCase_unfold, lostUnits_filter by done.
  assert (length (List.filter (λ x, negb (JSSet.has new x)) cur) = 0 ↔ cur ⊆ new)
    as Hlen.
  { rewrite length_zero_iff_nil, List_filter_nil_iff. unfold subseteq, list_subseteq.
    apply forall_proper. intros x.
    rewrite negb_false_iff, has_true. tauto. }
  case_bool_decide as H0.
  - split; [intros _; by apply Hlen|done].
  - split; [by repeat case_match|].
    intros Hsub%Hlen. by destruct H0.
Qed.

Lemma groupCase_NoCompatibleUnits_iff cur new d :
  NoDup cur →
  Rev2.groupCase cur new d = NoCompatibleUnits
  ↔ list_intersection cur new = [] ∧ cur ≠ [].
Proof.
  intros Hnd. rewrite groupCase_unfold, lostUnits_filter by done.
  rewrite list_intersection_nil_iff.
  assert (length (List.filter (λ x, negb (JSSet.has new x)) cur) = length cur
          ↔ ∀ x, x ∈ cur → x ∉ new) as Hlen.
  { rewrite List_filter_length_eq. apply forall_proper. intros x.
    rewrite negb_true_iff, has_false. tauto. }
  assert (length (List.filter (λ x, negb (JSSet.has new x)) cur) = 0 →
          (∀ x, x ∈ cur → x ∉ new) → cur = []) as Hnil.
  { intros H0 Hall. apply Hlen in Hall. rewrite H0 in Hall. by destruct cur. }
  case_bool_decide as H0.
  { split; [done|]. intros [Hall Hne]. by destruct Hne, Hnil. }
  case_bool_decide as H1.
  { split; [|done]. intros _. split; [by apply Hlen|].
    intros ->. by destruct H0. }
  split; [by case_match|].
  intros [Hall%Hlen _]. by destruct H1.
Qed.

(** C1: for a set [currentUnits] (a list without repetitions), any
    [newUnits] and any default unit, both revisions of [groupCase] compute
    [lost = currentUnits - (currentUnits ∩ newUnits)] and return the first
    matching row of the decision table: [NoChange] if [lost] is empty, else
    [NoCompatibleUnits] if [lost] equals [currentUnits], else
    [LostDefaultGraphicUnit] if the default unit is not -99 and is in
    [lost], else [LostCompatibleUnits]; the outcome is one of the four
    variants and it is the only one returned. *)
Theorem C1_groupCase_decision_table
    (currentUnits newUnits : list Z) (defaultGraphicUnit : Z) :
  NoDup currentUnits →
  lostUnits currentUnits newUnits = lost_spec currentUnits newUnits
  ∧ Rev1.groupCase currentUnits newUnits defaultGraphicUnit
    = groupCase_spec currentUnits newUnits defaultGraphicUnit
  ∧ Rev2.groupCase currentUnits newUnits defaultGraphicUnit
    = groupCase_spec currentUnits newUnits defaultGraphicUnit
  ∧ exists ! c : GroupCase,
      Rev2.groupCase currentUnits newUnits defaultGraphicUnit = c
      ∧ (c = NoChange ∨ c = LostCompatibleUnits
         ∨ c = LostDefaultGraphicUnit ∨ c = NoCompatibleUnits).
Proof.
  intros Hnd. split_and!.
  - by apply lostUnits_spec.
  - rewrite rev_groupCase. by apply groupCase_refines_spec.
  - by apply groupCase_refines_spec.
  - exists (Rev2.groupCase currentUnits newUnits defaultGraphicUnit). split.
    + split; [done|]. destruct (Rev2.groupCase _ _ _); tauto.
    + by intros c [-> _].
Qed.

Lemma C1_groupCase_decision_table_witness :
  NoDup [1%Z; 2%Z; 3%Z]
  ∧ Rev2.groupCase [1%Z; 2%Z; 3%Z] [2%Z; 3%Z; 4%Z] 1
    = groupCase_spec [1%Z; 2%Z; 3%Z] [2%Z; 3%Z; 4%Z] 1.
Proof.
  assert (NoDup [1%Z; 2%Z; 3%Z]) as Hnd.
  { apply (bool_decide_unpack _). vm_compute. exact I. }
  split; [exact Hnd|].
  apply (C1_groupCase_decision_table [1%Z; 2%Z; 3%Z] [2%Z; 3%Z; 4%Z] 1 Hnd).
Defined.

(** C4: for a set [currentUnits], [groupCase] returns [NoChange] exactly
    when [currentUnits ⊆ newUnits], and [NoCompatibleUnits] exactly when
    [currentUnits ∩ newUnits] is empty and [currentUnits] is not; so when
    everything is lost the outcome is [NoCompatibleUnits] even if the default
    unit is among the lost units. Both revisions. *)
Theorem C4_groupCase_NoChange_NoCompatibleUnits
    (currentUnits newUnits : list Z) (defaultGraphicUnit : Z) :
  NoDup currentUnits →
  (Rev1.groupCase currentUnits newUnits defaultGraphicUnit = NoChange
   ↔ currentUnits ⊆ newUnits)
  ∧ (Rev2.groupCase currentUnits newUnits defaultGraphicUnit = NoChange
     ↔ currentUnits ⊆ newUnits)
  ∧ (Rev1.groupCase currentUnits newUnits defaultGraphicUnit = NoCompatibleUnits
     ↔ list_intersection currentUnits newUnits = [] ∧ currentUnits ≠ [])
  ∧ (Rev2.groupCase currentUnits newUnits defaultGraphicUnit = NoCompatibleUnits
     ↔ list_intersection currentUnits newUnits = [] ∧ currentUnits ≠ [])
  ∧ (list_intersection currentUnits newUnits = [] → currentUnits ≠ [] →
     defaultGraphicUnit ∈ lostUnits currentUnits newUnits →
     Rev2.groupCase currentUnits newUnits defaultGraphicUnit
     ≠ LostDefaultGraphicUnit).
Proof.
  intros Hnd. rewrite !rev_groupCase. split_and!.
  - by apply groupCase_NoChange_iff.
  - by apply groupCase_NoChange_iff.
  - by apply groupCase_NoCompatibleUnits_iff.
  - by apply groupCase_NoCompatibleUnits_iff.
  - intros Hi Hne _.
    assert (Rev2.groupCase currentUnits newUnits defaultGraphicUnit
            = NoCompatibleUnits) as ->; [|done].
    by apply groupCase_NoCompatibleUnits_iff.
Qed.

Lemma C4_groupCase_NoChange_NoCompatibleUnits_witness :
  NoDup [1%Z; 2%Z; 3%Z]
  ∧ (Rev2.groupCase [1%Z; 2%Z; 3%Z] [] 1 = NoCompatibleUnits
     ↔ list_intersection [1%Z; 2%Z; 3%Z] [] = [] ∧ [1%Z; 2%Z; 3%Z] ≠ []).
Proof.
  assert (NoDup [1%Z; 2%Z; 3%Z]) as Hnd.
  { apply (bool_decide_unpack _). vm_compute. exact I. }
  split; [exact Hnd|].
  apply (C4_groupCase_NoChange_NoCompatibleUnits [1%Z; 2%Z; 3%Z] [] 1 Hnd).
Defined.

(** C9: the earlier and the later definition of [groupCase] return the same
    outcome on all inputs, and the two definitions of [setIntersect] return
    the same set. *)
Theorem C9_revisions_agree :
  (∀ currentUnits newUnits defaultGraphicUnit,
     Rev1.groupCase currentUnits newUnits defaultGraphicUnit
     = Rev2.groupCase currentUnits newUnits defaultGraphicUnit)
  ∧ (∀ setA setB, Rev1.setIntersect setA setB = Rev2.setIntersect setA setB).
Proof. split; reflexivity. Qed.

(** * The unit resolver (claims C6, C7 and C10) *)

(** C6: [unitsCompatibleWithUnit] returns the empty set, and throws nothing,
    whenever the unit id is the sentinel -99 or the relation is not yet
    available, whatever the rest of the state (an empty catalog, no relation
    at all). Both revisions. *)
Theorem C6_unitsCompatibleWithUnit_degrades_to_empty (env : Env) (unitId : Z) :
  unitId = (-99)%Z ∨ pikAvailable (conversionArray env) = false →
  Rev1.unitsCompatibleWithUnit env unitId = Return []
  ∧ Rev2.unitsCompatibleWithUnit env unitId = Return [].
Proof.
  rewrite rev_unitsCompatibleWithUnit. intros [->|Hready].
  - split; apply unitsCompatibleWithUnit_sentinel.
  - split; by apply unitsCompatibleWithUnit_not_ready.
Qed.

Lemma C6_unitsCompatibleWithUnit_degrades_to_empty_witness :
  (5%Z = (-99)%Z ∨ pikAvailable (conversionArray site_loading) = false)
  ∧ Rev2.unitsCompatibleWithUnit site_loading 5 = Return [].
Proof.
  assert (5%Z = (-99)%Z ∨ pikAvailable (conversionArray site_loading) = false)
    as H by (right; reflexivity).
  split; [exact H|].
  apply (C6_unitsCompatibleWithUnit_degrades_to_empty site_loading 5 H).
Defined.

Lemma unitsCompatibleWithUnit_Throw_row env unitId :
  unitId ≠ (-99)%Z → pikAvailable (conversionArray env) = true →
  ¬ meter_unit_in_catalog env unitId →
  Rev2.unitsCompatibleWithUnit env unitId = Throw TypeError.
Proof.
  intros Hu Hready Hno. rewrite unitsCompatibleWithUnit_loop by done.
  by rewrite pRowFromUnit_Throw.
Qed.

Lemma unitsCompatibleWithUnit_Throw_column env unitId row k :
  unitId ≠ (-99)%Z → pikAvailable (conversionArray env) = true →
  Rev2.pRowFromUnit env unitId = Return row →
  pik_column env k → pik_true env row k → ¬ column_unit_in_catalog env k →
  Rev2.unitsCompatibleWithUnit env unitId = Throw TypeError.
Proof.
  intros Hu Hready Hrow (pik0 & Hpik0 & Hk) (pikRow & HpikRow & Htrue) Hno.
  rewrite unitsCompatibleWithUnit_loop by done.
  rewrite Hrow. simpl. rewrite Hpik0. simpl.
  apply (forEach_Throw _ _ k).
  - apply elem_of_seqZ. lia.
  - intros unitSet. rewrite HpikRow. simpl. rewrite Htrue. simpl.
    by rewrite unitFromPColumn_Throw.
Qed.

Lemma unitsCompatibleWithMeters_Throw env ms m :
  m ∈ ms → meterUnits env m = Throw TypeError →
  Rev2.unitsCompatibleWithMeters env ms = Throw TypeError.
Proof.
  intros Hm Hthrow.
  destruct (Completion_cases (Rev2.unitsCompatibleWithMeters env ms))
    as [Hret|?]; [|done].
  destruct (proj1 (unitsCompatibleWithMeters_returns env ms) Hret m Hm)
    as [u Hu].
  congruence.
Qed.

(** C7: with the relation available and a unit id other than -99, the
    resolver throws (the [TypeError] of reading [unitIndex] or [id] of the
    [undefined] that [_.find] returned, which the specification calls
    [UnitNotFound]) when the id is not that of a meter-typed unit of the
    catalog, and when some column of the relation that is [true] in the
    unit's row is the index of no unit of another type. The result is the
    exception, not the empty set, and the callers pass it on:
    [unitsCompatibleWithMeters] on any set holding a meter with that unit and
    the classification of such a meter throw as well. Both revisions. *)
Theorem C7_unit_lookup_failure_propagates (env : Env) (unitId : Z) :
  unitId ≠ (-99)%Z → pikAvailable (conversionArray env) = true →
  (¬ meter_unit_in_catalog env unitId
   ∨ ∃ row k, Rev2.pRowFromUnit env unitId = Return row
              ∧ pik_column env k ∧ pik_true env row k
              ∧ ¬ column_unit_in_catalog env k) →
  Rev1.unitsCompatibleWithUnit env unitId = Throw TypeError
  ∧ Rev2.unitsCompatibleWithUnit env unitId = Throw TypeError
  ∧ Rev2.unitsCompatibleWithUnit env unitId ≠ Return []
  ∧ (∀ meters m meter,
       m ∈ meters →
       Object_get (meters_byMeterID (getState env)) m = Some meter →
       meter_unitId meter = unitId →
       Rev2.unitsCompatibleWithMeters env meters = Throw TypeError)
  ∧ (∀ currentUnits m meter defaultGraphicUnit,
       Object_get (meters_byMeterID (getState env)) m = Some meter →
       meter_unitId meter = unitId →
       Rev2.getCompatibilityChangeCase env currentUnits m Meter defaultGraphicUnit
       = Throw TypeError).
Proof.
  intros Hu Hready Hfault.
  assert (Rev2.unitsCompatibleWithUnit env unitId = Throw TypeError) as Hthrow.
  { destruct Hfault as [Hno|(row & k & Hrow & Hcol & Htrue & Hno)].
    - by apply unitsCompatibleWithUnit_Throw_row.
    - by eapply unitsCompatibleWithUnit_Throw_column. }
  rewrite rev_unitsCompatibleWithUnit. split_and!; try done.
  - by rewrite Hthrow.
  - intros meters m meter Hm Hget <-.
    apply (unitsCompatibleWithMeters_Throw _ _ m); [done|].
    by rewrite (meterUnits_lookup _ _ _ Hget).
  - intros cur m meter d Hget <-.
    unfold Rev2.getCompatibilityChangeCase, Rev2.getCompatibleUnits. simpl.
    rewrite Hget. simpl. by rewrite Hthrow.
Qed.

Lemma site_broken_column_2 : ¬ column_unit_in_catalog site_broken 2.
Proof.
  intros (o & Ho & Hidx & Hty). apply list_elem_of_In in Ho. simpl in Ho.
  destruct Ho as [<-|[<-|[<-|[<-|[]]]]]; simpl in Hidx; lia.
Defined.

Lemma C7_unit_lookup_failure_propagates_witness :
  Rev2.unitsCompatibleWithUnit site_broken 1 = Throw TypeError
  ∧ Rev2.unitsCompatibleWithMeters site_broken [2%Z; 4%Z] = Throw TypeError.
Proof.
  assert (1 ≠ -99)%Z as Hu by lia.
  assert (pikAvailable (conversionArray site_broken) = true) as Hready
    by reflexivity.
  assert (¬ meter_unit_in_catalog site_broken 1
          ∨ ∃ row k, Rev2.pRowFromUnit site_broken 1 = Return row
                     ∧ pik_column site_broken k ∧ pik_true site_broken row k
                     ∧ ¬ column_unit_in_catalog site_broken k) as Hfault.
  { right. exists 0%Z, 2%Z. split_and!.
    - reflexivity.
    - exists [true; false; true]. split; [reflexivity|simpl; lia].
    - exists [true; false; true]. split; reflexivity.
    - exact site_broken_column_2. }
  pose proof (C7_unit_lookup_failure_propagates site_broken 1 Hu Hready Hfault)
    as (_ & H2 & _ & Hmeters & _).
  split; [exact H2|].
  apply (Hmeters [2%Z; 4%Z] 4%Z (mkMeterData 4 "m4" 1)).
  - apply list_elem_of_In. simpl. tauto.
  - reflexivity.
  - reflexivity.
Defined.

Lemma NoDup_fmap_inj_on {A B : Type} (f : A → B) (l : list A) x y :
  NoDup (f <$> l) → x ∈ l → y ∈ l → f x = f y → x = y.
Proof.
  induction l as [|a l IH]; simpl; [by intros _ ?%elem_of_nil|].
  intros [Ha Hl]%NoDup_cons [->|Hx]%elem_of_cons [->|Hy]%elem_of_cons Heq; auto.
  - destruct Ha. rewrite Heq. by apply list_elem_of_fmap_2.
  - destruct Ha. rewrite <- Heq. by apply list_elem_of_fmap_2.
Qed.

(** C10: every element of a set returned by [unitsCompatibleWithUnit] is the
    id of a unit of the catalog whose type is not [meter]; where unit ids are
    unique in the catalog, no element is the id of a meter-typed unit. Both
    revisions. *)
Theorem C10_resolver_returns_non_meter_units (env : Env) (unitId : Z) (s : list Z) :
  Rev1.unitsCompatibleWithUnit env unitId = Return s
  ∨ Rev2.unitsCompatibleWithUnit env unitId = Return s →
  (∀ x, x ∈ s →
     ∃ o, o ∈ units_units (getState env)
          ∧ unit_id o = x ∧ unit_typeOfUnit o ≠ meter)
  ∧ (unit_ids_unique env →
     ∀ x o, x ∈ s → o ∈ units_units (getState env) → unit_id o = x →
            unit_typeOfUnit o ≠ meter).
Proof.
  rewrite rev_unitsCompatibleWithUnit. intros Hs.
  assert (Rev2.unitsCompatibleWithUnit env unitId = Return s) as Hret by tauto.
  clear Hs.
  assert (∀ x, x ∈ s →
     ∃ o, o ∈ units_units (getState env)
          ∧ unit_id o = x ∧ unit_typeOfUnit o ≠ meter) as Hall.
  { revert Hret. apply (unitsCompatibleWithUnit_invariant (λ s0, ∀ x, x ∈ s0 →
      ∃ o, o ∈ units_units (getState env)
           ∧ unit_id o = x ∧ unit_typeOfUnit o ≠ meter)).
    - by intros x ?%elem_of_nil.
    - intros s0 k u IH Hu x [Hx| ->]%elem_of_add; [by apply IH|].
      apply unitFromPColumn_Return_inv in Hu as (o & Ho & _ & Hty & Hid).
      by exists o. }
  split; [exact Hall|].
  intros Huniq x o Hx Ho Hid.
  destruct (Hall x Hx) as (o' & Ho' & Hid' & Hty').
  assert (o = o') as ->; [|done].
  apply (NoDup_fmap_inj_on unit_id (units_units (getState env))); [done..|].
  congruence.
Qed.

Lemma C10_resolver_returns_non_meter_units_witness :
  Rev2.unitsCompatibleWithUnit site 1 = Return [5%Z; 7%Z]
  ∧ ∀ x, x ∈ [5%Z; 7%Z] →
      ∃ o, o ∈ units_units (getState site)
           ∧ unit_id o = x ∧ unit_typeOfUnit o ≠ meter.
Proof.
  assert (Rev2.unitsCompatibleWithUnit site 1 = Return [5%Z; 7%Z]) as H
    by reflexivity.
  split; [exact H|].
  apply (C10_resolver_returns_non_meter_units site 1 [5%Z; 7%Z] (or_intror H)).
Defined.

(** * The meter set resolver (claims C5 and C3) *)

Lemma unitsCompatibleWithMeters_singleton env m meter :
  Object_get (meters_byMeterID (getState env)) m = Some meter →
  Rev2.unitsCompatibleWithMeters env [m]
  = Rev2.unitsCompatibleWithUnit env (meter_unitId meter).
Proof.
  intros Hget. rewrite unitsCompatibleWithMeters_cons.
  rewrite (meterUnits_lookup _ _ _ Hget).
  by destruct (Rev2.unitsCompatibleWithUnit env _).
Qed.

Lemma unitsCompatibleWithMeters_elem_of_ex env ms s :
  ms ≠ [] → Rev2.unitsCompatibleWithMeters env ms = Return s →
  ∀ x, x ∈ s ↔ ∀ m, m ∈ ms → ∃ u, meterUnits env m = Return u ∧ x ∈ u.
Proof.
  intros Hne Hs x.
  pose proof (proj1 (unitsCompatibleWithMeters_returns env ms) (ex_intro _ s Hs))
    as Hall.
  rewrite (unitsCompatibleWithMeters_elem_of env ms s Hne Hs). split.
  - intros H m Hm. destruct (Hall m Hm) as [u Hu]. exists u. eauto.
  - intros H m u Hm Hu. destruct (H m Hm) as (u' & Hu' & Hx). congruence.
Qed.

Lemma unitsCompatibleWithMeters_sentinel env ms m meter s :
  Object_get (meters_byMeterID (getState env)) m = Some meter →
  meter_unitId meter = (-99)%Z → m ∈ ms →
  Rev2.unitsCompatibleWithMeters env ms = Return s → s = [].
Proof.
  intros Hget Hsent Hm Hs. apply elem_of_nil_inv. intros x Hx.
  assert (ms ≠ []) as Hne by (intros ->; by apply elem_of_nil in Hm).
  rewrite (unitsCompatibleWithMeters_elem_of env ms s Hne Hs) in Hx.
  specialize (Hx m [] Hm). rewrite (meterUnits_lookup _ _ _ Hget), Hsent in Hx.
  specialize (Hx (unitsCompatibleWithUnit_sentinel env)).
  by apply elem_of_nil in Hx.
Qed.

Lemma unitsCompatibleWithMeters_Permutation_Return env ms ms' s :
  ms ≡ₚ ms' → Rev2.unitsCompatibleWithMeters env ms = Return s →
  ∃ s', Rev2.unitsCompatibleWithMeters env ms' = Return s' ∧ same_set s s'.
Proof.
  intros Hperm Hs.
  assert (∃ s', Rev2.unitsCompatibleWithMeters env ms' = Return s') as [s' Hs'].
  { apply unitsCompatibleWithMeters_returns. intros m Hm.
    apply (proj1 (unitsCompatibleWithMeters_returns env ms) (ex_intro _ s Hs)).
    by rewrite Hperm. }
  exists s'. split; [done|]. intros x.
  destruct ms as [|m0 ms].
  - apply Permutation_nil_l in Hperm as <-.
    rewrite unitsCompatibleWithMeters_nil in Hs, Hs'.
    by injection Hs as <-; injection Hs' as <-.
  - assert (ms' ≠ []) as Hne'.
    { intros ->. by apply Permutation_nil_r in Hperm. }
    assert (m0 :: ms ≠ []) as Hne by done.
    rewrite (unitsCompatibleWithMeters_elem_of env (m0 :: ms) s Hne Hs).
    rewrite (unitsCompatibleWithMeters_elem_of env ms' s' Hne' Hs').
    split; intros H m u Hm; apply H; [by rewrite Hperm|by rewrite <- Hperm].
Qed.

Lemma unitsCompatibleWithMeters_Permutation env ms ms' :
  ms ≡ₚ ms' →
  (Rev2.unitsCompatibleWithMeters env ms = Throw TypeError
   ∧ Rev2.unitsCompatibleWithMeters env ms' = Throw TypeError)
  ∨ ∃ s s', Rev2.unitsCompatibleWithMeters env ms = Return s
            ∧ Rev2.unitsCompatibleWithMeters env ms' = Return s'
            ∧ same_set s s'.
Proof.
  intros Hperm.
  destruct (Completion_cases (Rev2.unitsCompatibleWithMeters env ms))
    as [[s Hs]|Ht].
  - right. destruct (unitsCompatibleWithMeters_Permutation_Return _ _ _ _ Hperm Hs)
      as (s' & Hs' & Hsame).
    by exists s, s'.
  - left. split; [done|].
    destruct (Completion_cases (Rev2.unitsCompatibleWithMeters env ms'))
      as [[s' Hs']|Ht']; [|done].
    symmetry in Hperm.
    destruct (unitsCompatibleWithMeters_Permutation_Return _ _ _ _ Hperm Hs')
      as (s & Hs & _).
    congruence.
Qed.

(** C5: [unitsCompatibleWithMeters] (the same function in both revisions)
    returns the empty set for the empty meter set; otherwise the first
    meter's compatible set seeds the accumulator and every further meter is
    intersected into it; for a singleton [{m}] it is
    [unitsCompatibleWithUnit] of [m]'s unit; a meter whose unit is -99
    contributes the empty set and makes every returned aggregate empty; the
    call returns exactly when every meter resolves, then with the
    intersection over all meters; and visiting the meters in another order
    gives the same outcome: an exception both times or sets with the same
    elements. *)
Theorem C5_unitsCompatibleWithMeters_fold (env : Env) :
  (∀ meters, Rev1.unitsCompatibleWithMeters env meters
             = Rev2.unitsCompatibleWithMeters env meters)
  ∧ Rev2.unitsCompatibleWithMeters env [] = Return []
  ∧ (∀ m meters,
       Rev2.unitsCompatibleWithMeters env (m :: meters)
       = (units ← meterUnits env m; intersectMeters env units meters))
  ∧ (∀ m meter,
       Object_get (meters_byMeterID (getState env)) m = Some meter →
       Rev2.unitsCompatibleWithMeters env [m]
       = Rev2.unitsCompatibleWithUnit env (meter_unitId meter))
  ∧ (∀ m meter,
       Object_get (meters_byMeterID (getState env)) m = Some meter →
       meter_unitId meter = (-99)%Z →
       meterUnits env m = Return []
       ∧ ∀ meters s, m ∈ meters →
           Rev2.unitsCompatibleWithMeters env meters = Return s → s = [])
  ∧ (∀ meters,
       (∃ s, Rev2.unitsCompatibleWithMeters env meters = Return s)
       ↔ ∀ m, m ∈ meters → ∃ u, meterUnits env m = Return u)
  ∧ (∀ meters s,
       meters ≠ [] → Rev2.unitsCompatibleWithMeters env meters = Return s →
       ∀ x, x ∈ s ↔ ∀ m, m ∈ meters → ∃ u, meterUnits env m = Return u ∧ x ∈ u)
  ∧ (∀ meters meters',
       meters ≡ₚ meters' →
       (Rev2.unitsCompatibleWithMeters env meters = Throw TypeError
        ∧ Rev2.unitsCompatibleWithMeters env meters' = Throw TypeError)
       ∨ ∃ s s', Rev2.unitsCompatibleWithMeters env meters = Return s
                 ∧ Rev2.unitsCompatibleWithMeters env meters' = Return s'
                 ∧ same_set s s').
Proof.
  split_and!.
  - intros meters. apply rev_unitsCompatibleWithMeters.
  - apply unitsCompatibleWithMeters_nil.
  - intros m meters. apply unitsCompatibleWithMeters_cons.
  - intros m meter. apply unitsCompatibleWithMeters_singleton.
  - intros m meter Hget Hsent. split.
    + rewrite (meterUnits_lookup _ _ _ Hget), Hsent.
      apply unitsCompatibleWithUnit_sentinel.
    + intros meters s. by apply unitsCompatibleWithMeters_sentinel with meter.
  - intros meters. apply unitsCompatibleWithMeters_returns.
  - intros meters s. apply unitsCompatibleWithMeters_elem_of_ex.
  - intros meters meters'. apply unitsCompatibleWithMeters_Permutation.
Qed.

Lemma C5_unitsCompatibleWithMeters_fold_witness :
  Object_get (meters_byMeterID (getState site)) 4 = Some (mkMeterData 4 "m4" 1)
  ∧ Rev2.unitsCompatibleWithMeters site [4%Z]
    = Rev2.unitsCompatibleWithUnit site 1.
Proof.
  assert (Object_get (meters_byMeterID (getState site)) 4
          = Some (mkMeterData 4 "m4" 1)) as Hget by reflexivity.
  split; [exact Hget|].
  pose proof (C5_unitsCompatibleWithMeters_fold site)
    as (_ & _ & _ & Hsingle & _).
  apply (Hsingle 4%Z (mkMeterData 4 "m4" 1) Hget).
Defined.

Example site_meters_order :
  Rev2.unitsCompatibleWithMeters site [1%Z; 4%Z] = Return [5%Z; 7%Z]
  ∧ Rev2.unitsCompatibleWithMeters site [4%Z; 1%Z] = Return [5%Z; 7%Z]
  ∧ Rev2.unitsCompatibleWithMeters site [1%Z; 3%Z; 4%Z] = Return []
  ∧ Rev2.unitsCompatibleWithMeters site_broken [2%Z; 1%Z] = Throw TypeError
  ∧ Rev2.unitsCompatibleWithMeters site_broken [1%Z; 2%Z] = Throw TypeError.
Proof. repeat split. Qed.

(** C3, as stated, fails for the empty subset: the resolver returns the
    empty set for no meters, and a non-empty set for meter 1 of the site. *)
Lemma C3_counterexample :
  [] ⊆ [1%Z]
  ∧ Rev2.unitsCompatibleWithMeters site [] = Return []
  ∧ Rev2.unitsCompatibleWithMeters site [1%Z] = Return [5%Z; 7%Z]
  ∧ ¬ ([5%Z; 7%Z] ⊆ ([] : list Z)).
Proof.
  split_and!; [|reflexivity|reflexivity|].
  - intros x Hx. by apply elem_of_nil in Hx.
  - intros H. specialize (H 5%Z (list_elem_of_here _ _)).
    by apply elem_of_nil in H.
Qed.

(** C3, amended: for meter sets [A ⊆ B] with [A] not empty, whenever
    [unitsCompatibleWithMeters(B)] returns a set, [unitsCompatibleWithMeters(A)]
    returns one too and includes it. Both revisions. *)
Theorem C3_monotone_on_nonempty_subsets (env : Env) (A B sB : list Z) :
  A ≠ [] → A ⊆ B →
  Rev1.unitsCompatibleWithMeters env B = Return sB
  ∨ Rev2.unitsCompatibleWithMeters env B = Return sB →
  ∃ sA, Rev1.unitsCompatibleWithMeters env A = Return sA
        ∧ Rev2.unitsCompatibleWithMeters env A = Return sA
        ∧ sB ⊆ sA.
Proof.
  rewrite !rev_unitsCompatibleWithMeters. intros HA Hsub HB.
  assert (Rev2.unitsCompatibleWithMeters env B = Return sB) as HsB by tauto.
  clear HB.
  assert (B ≠ []) as HBne.
  { intros ->. destruct A as [|a A]; [done|].
    specialize (Hsub a (list_elem_of_here _ _)). by apply elem_of_nil in Hsub. }
  pose proof (proj1 (unitsCompatibleWithMeters_returns env B) (ex_intro _ sB HsB))
    as Hall.
  destruct (proj2 (unitsCompatibleWithMeters_returns env A)) as [sA HsA].
  { intros m Hm. apply Hall, Hsub, Hm. }
  exists sA. split_and!; [done..|].
  intros x Hx.
  rewrite (unitsCompatibleWithMeters_elem_of env A sA HA HsA).
  rewrite (unitsCompatibleWithMeters_elem_of env B sB HBne HsB) in Hx.
  intros m u Hm. apply Hx, Hsub, Hm.
Qed.

Lemma C3_monotone_on_nonempty_subsets_witness :
  ([4%Z] ≠ ([] : list Z)) ∧ [4%Z] ⊆ [1%Z; 4%Z]
  ∧ Rev2.unitsCompatibleWithMeters site [1%Z; 4%Z] = Return [5%Z; 7%Z]
  ∧ ∃ sA, Rev1.unitsCompatibleWithMeters site [4%Z] = Return sA
          ∧ Rev2.unitsCompatibleWithMeters site [4%Z] = Return sA
          ∧ [5%Z; 7%Z] ⊆ sA.
Proof.
  assert ([4%Z] ≠ ([] : list Z)) as HA by discriminate.
  assert ([4%Z] ⊆ [1%Z; 4%Z]) as Hsub.
  { intros x Hx. apply list_elem_of_In in Hx. apply list_elem_of_In.
    simpl in *. tauto. }
  assert (Rev2.unitsCompatibleWithMeters site [1%Z; 4%Z] = Return [5%Z; 7%Z])
    as HB by reflexivity.
  split_and!; [exact HA|exact Hsub|exact HB|].
  apply (C3_monotone_on_nonempty_subsets site [4%Z] [1%Z; 4%Z] [5%Z; 7%Z]
           HA Hsub (or_intror HB)).
Defined.

(** * Menus and candidates (claims C8 and C2) *)

(** C8: each of [getMeterMenuOptionsForGroup] (both revisions) and
    [getGroupMenuOptionsForGroup] (second revision), when it returns, holds
    one option per candidate, in order, with the candidate's id as value and
    [isDisabled = true] exactly when [getCompatibilityChangeCase] gives
    [NoCompatibleUnits] for that candidate; and the menu is returned whenever
    the group's baseline and every candidate's classification are. *)
Theorem C8_menus_disable_iff_NoCompatibleUnits (env : Env) (gid : Z) :
  menu_follows_classifier env gid
    (Object_values (meters_byMeterID (getState env))) meter_id
    (λ cur d meter,
       Rev1.getCompatibilityChangeCase env cur (meter_id meter) Meter d)
    (Rev1.getMeterMenuOptionsForGroup env gid)
  ∧ menu_follows_classifier env gid
      (Object_values (meters_byMeterID (getState env))) meter_id
      (λ cur d meter,
         Rev2.getCompatibilityChangeCase env cur (meter_id meter) Meter d)
      (Rev2.getMeterMenuOptionsForGroup env gid)
  ∧ menu_follows_classifier env gid
      (Object_values (groups_byGroupID (getState env))) group_id
      (λ cur d group,
         Rev2.getCompatibilityChangeCase env cur (group_id group) Group d)
      (Rev2.getGroupMenuOptionsForGroup env gid).
Proof.
  split_and!.
  - apply Rev1_meter_menu.
  - apply Rev2_meter_menu.
  - apply Rev2_group_menu.
Qed.

Lemma C8_menus_disable_iff_NoCompatibleUnits_witness :
  Rev2.getGroupMenuOptionsForGroup site 1
  = Return [ mkSelectOption "g1" 1 false (Some [("color", "black")]);
             mkSelectOption "g2" 2 false (Some [("color", "black")]);
             mkSelectOption "g3" 3 true (Some []) ]
  ∧ ∃ currentUnits defaultGraphicUnit,
      group_baseline site 1 currentUnits defaultGraphicUnit
      ∧ Forall2 (λ group option,
          value option = group_id group
          ∧ ∃ c, Rev2.getCompatibilityChangeCase site currentUnits
                   (group_id group) Group defaultGraphicUnit = Return c
                 ∧ (isDisabled option = true ↔ c = NoCompatibleUnits))
          (Object_values (groups_byGroupID (getState site)))
          [ mkSelectOption "g1" 1 false (Some [("color", "black")]);
            mkSelectOption "g2" 2 false (Some [("color", "black")]);
            mkSelectOption "g3" 3 true (Some []) ].
Proof.
  assert (Rev2.getGroupMenuOptionsForGroup site 1
          = Return [ mkSelectOption "g1" 1 false (Some [("color", "black")]);
                     mkSelectOption "g2" 2 false (Some [("color", "black")]);
                     mkSelectOption "g3" 3 true (Some []) ]) as Hmenu
    by reflexivity.
  split; [exact Hmenu|].
  pose proof (C8_menus_disable_iff_NoCompatibleUnits site 1)
    as (_ & _ & Hgroup & _).
  apply (Hgroup _ Hmenu).
Defined.

(** A candidate is resolved by its type: a meter through its own unit, a
    group through its deep meters. The same in both revisions. *)
Lemma getCompatibleUnits_Meter env id :
  Rev2.getCompatibleUnits env id Meter
  = (meter ← deref (Object_get (meters_byMeterID (getState env)) id);
     Rev2.unitsCompatibleWithUnit env (meter_unitId meter)).
Proof. reflexivity. Qed.

Lemma getCompatibleUnits_Group env id :
  Rev2.getCompatibleUnits env id Group
  = (meters ← Rev2.metersInGroup env id;
     Rev2.unitsCompatibleWithMeters env meters).
Proof. reflexivity. Qed.

Lemma group_baseline_site_1 cur d :
  group_baseline site 1 cur d → cur = [5%Z; 7%Z] ∧ d = 5%Z.
Proof.
  intros (ms & g & Hms & Hcur & Hg & ->).
  injection Hms as <-. injection Hcur as <-. injection Hg as <-. done.
Qed.

(** C2, the first revision at the site's group 1: the candidate group 2,
    whose deep meters are those of group 1, leaves the compatible units
    unchanged when resolved as a group; the first revision's
    [getGroupMenuOptionsForGroup] passes [DataType.Meter], resolves the id 2
    as meter 2 and disables the option, so its menu does not follow the
    classification of the candidates as groups. In general its menu follows
    the classification of the group ids as meters. The second revision
    passes [DataType.Group] and leaves the option enabled. *)
Theorem C2_Rev1_group_menu_resolves_groups_as_meters :
  Rev1.getCompatibleUnits site 2 Group = Return [5%Z; 7%Z]
  ∧ Rev1.getCompatibleUnits site 2 Meter = Return [6%Z]
  ∧ Rev1.getCompatibilityChangeCase site [5%Z; 7%Z] 2 Group 5 = Return NoChange
  ∧ Rev1.getCompatibilityChangeCase site [5%Z; 7%Z] 2 Meter 5
    = Return NoCompatibleUnits
  ∧ Rev1.getGroupMenuOptionsForGroup site 1
    = Return [ mkSelectOption "g1" 1 false None;
               mkSelectOption "g2" 2 true None;
               mkSelectOption "g3" 3 true None ]
  ∧ Rev2.getGroupMenuOptionsForGroup site 1
    = Return [ mkSelectOption "g1" 1 false (Some [("color", "black")]);
               mkSelectOption "g2" 2 false (Some [("color", "black")]);
               mkSelectOption "g3" 3 true (Some []) ]
  ∧ ¬ menu_follows_classifier site 1
        (Object_values (groups_byGroupID (getState site))) group_id
        (λ cur d group,
           Rev1.getCompatibilityChangeCase site cur (group_id group) Group d)
        (Rev1.getGroupMenuOptionsForGroup site 1)
  ∧ (∀ env gid,
       menu_follows_classifier env gid
         (Object_values (groups_byGroupID (getState env))) group_id
         (λ cur d group,
            Rev1.getCompatibilityChangeCase env cur (group_id group) Meter d)
         (Rev1.getGroupMenuOptionsForGroup env gid)).
Proof.
  split_and!; try reflexivity.
  - intros [Hmenu _].
    destruct (Hmenu _ eq_refl) as (cur & d & Hbase & Hall).
    apply group_baseline_site_1 in Hbase as [-> ->].
    apply Forall2_cons_1 in Hall as [_ Hall].
    apply Forall2_cons_1 in Hall as [(_ & c & Hc & Hdis) _].
    injection Hc as <-. destruct Hdis as [Hdis _].
    specialize (Hdis eq_refl). vm_compute in Hdis. discriminate Hdis.
  - intros env gid. apply Rev1_group_menu.
Qed.

(** * Further properties of the module *)

(** ** Set intersection *)

Lemma List_filter_sublist (p : Z → bool) l : List.filter p l `sublist_of` l.
Proof.
  induction l as [|x l IH]; simpl; [constructor|].
  destruct (p x); by constructor.
Qed.

Lemma List_filter_filter (p q : Z → bool) l :
  List.filter p (List.filter q l) = List.filter (λ x, q x && p x) l.
Proof.
  induction l as [|x l IH]; simpl; [done|].
  destruct (q x); simpl; [|done]. destruct (p x); by rewrite IH.
Qed.

Lemma List_filter_ext_elem_of (p q : Z → bool) l :
  (∀ x, x ∈ l → p x = q x) → List.filter p l = List.filter q l.
Proof.
  intros H. apply List.filter_ext_in. intros x Hx. apply H.
  by apply list_elem_of_In.
Qed.

Lemma setIntersect_filter A B :
  NoDup A → Rev2.setIntersect A B = List.filter (λ i, JSSet.has B i) A.
Proof. intros H. unfold Rev2.setIntersect. by rewrite of_array_id by by apply List_filter_NoDup. Qed.

(** X1: [setIntersect] returns a set without repetitions whose elements are
    exactly the elements common to both arguments; on a set [setA] the result
    lists them in the order of [setA]. Both revisions. *)
Theorem setIntersect_common_elements (setA setB : list Z) :
  Rev1.setIntersect setA setB = Rev2.setIntersect setA setB
  ∧ NoDup (Rev2.setIntersect setA setB)
  ∧ (∀ x, x ∈ Rev2.setIntersect setA setB ↔ x ∈ setA ∧ x ∈ setB)
  ∧ (NoDup setA → Rev2.setIntersect setA setB `sublist_of` setA)
  ∧ (NoDup setA → JSSet.size (Rev2.setIntersect setA setB) ≤ JSSet.size setA).
Proof.
  split_and!.
  - reflexivity.
  - apply setIntersect_NoDup.
  - intros x. apply elem_of_setIntersect.
  - intros Hnd. rewrite setIntersect_filter by done. apply List_filter_sublist.
  - intros Hnd. rewrite setIntersect_filter by done. apply List_filter_length_le.
Qed.

Lemma NoDup_123 : NoDup [1%Z; 2%Z; 3%Z].
Proof. apply (bool_decide_unpack _). vm_compute. exact I. Defined.

Lemma NoDup_4231 : NoDup [4%Z; 2%Z; 3%Z; 1%Z].
Proof. apply (bool_decide_unpack _). vm_compute. exact I. Defined.

Lemma setIntersect_common_elements_witness :
  Rev2.setIntersect [1%Z; 2%Z; 3%Z] [4%Z; 2%Z; 3%Z; 1%Z]
    `sublist_of` [1%Z; 2%Z; 3%Z].
Proof.
  pose proof (setIntersect_common_elements [1%Z; 2%Z; 3%Z] [4%Z; 2%Z; 3%Z; 1%Z])
    as (_ & _ & _ & Hsub & _).
  exact (Hsub NoDup_123).
Defined.

(** X2: Laws of [setIntersect] on sets: a set intersected with itself is that
    set; the empty set absorbs on either side; intersection is associative;
    swapping the arguments gives the same elements, in the order of the new
    first argument. *)
Theorem setIntersect_laws (setA setB setC : list Z) :
  NoDup setA → NoDup setB →
  Rev2.setIntersect setA setA = setA
  ∧ Rev2.setIntersect [] setB = []
  ∧ Rev2.setIntersect setA [] = []
  ∧ Rev2.setIntersect (Rev2.setIntersect setA setB) setC
    = Rev2.setIntersect setA (Rev2.setIntersect setB setC)
  ∧ Rev2.setIntersect setA setB ≡ₚ Rev2.setIntersect setB setA
  ∧ Rev2.setIntersect setB setA `sublist_of` setB.
Proof.
  intros HA HB. split_and!.
  - rewrite setIntersect_filter by done. apply List_filter_id_iff.
    intros x Hx. by apply has_true.
  - apply setIntersect_nil_l.
  - apply setIntersect_nil_r.
  - rewrite (setIntersect_filter (Rev2.setIntersect setA setB))
      by apply setIntersect_NoDup.
    rewrite !(setIntersect_filter setA) by done.
    rewrite List_filter_filter. apply List_filter_ext_elem_of. intros x _.
    apply eq_true_iff_eq.
    rewrite andb_true_iff, !has_true, elem_of_setIntersect. tauto.
  - apply NoDup_Permutation; [apply setIntersect_NoDup..|].
    intros x. rewrite !elem_of_setIntersect. tauto.
  - rewrite setIntersect_filter by done. apply List_filter_sublist.
Qed.

Lemma setIntersect_laws_witness :
  Rev2.setIntersect [1%Z; 2%Z; 3%Z] [4%Z; 2%Z; 3%Z; 1%Z]
  ≡ₚ Rev2.setIntersect [4%Z; 2%Z; 3%Z; 1%Z] [1%Z; 2%Z; 3%Z].
Proof.
  pose proof (setIntersect_laws [1%Z; 2%Z; 3%Z] [4%Z; 2%Z; 3%Z; 1%Z] []
                NoDup_123 NoDup_4231) as (_ & _ & _ & _ & Hperm & _).
  exact Hperm.
Defined.

(** ** Outcomes of the classifier *)

Lemma List_filter_not_nil (p : Z → bool) l :
  List.filter p l ≠ [] → ∃ x, x ∈ l ∧ p x = true.
Proof.
  destruct (List.filter p l) as [|x k] eqn:E; [done|]. intros _.
  exists x. apply List_filter_elem_of. rewrite E. by left.
Qed.

Lemma lost_or_kept (cur new : list Z) :
  (∀ x, x ∈ cur → x ∈ new) ∨ (∃ x, x ∈ cur ∧ x ∉ new).
Proof.
  destruct (List.filter (λ x, negb (JSSet.has new x)) cur) as [|y k] eqn:E.
  - left. intros x Hx. rewrite List_filter_nil_iff in E.
    specialize (E x Hx). by apply negb_false_iff, has_true in E.
  - right. exists y.
    assert (y ∈ List.filter (λ x, negb (JSSet.has new x)) cur) as Hy
      by (rewrite E; by left).
    apply List_filter_elem_of in Hy as [Hy Hn].
    by apply negb_true_iff, has_false in Hn.
Qed.

Lemma kept_or_lost (cur new : list Z) :
  (∀ x, x ∈ cur → x ∉ new) ∨ (∃ x, x ∈ cur ∧ x ∈ new).
Proof.
  destruct (List.filter (λ x, JSSet.has new x) cur) as [|y k] eqn:E.
  - left. intros x Hx. rewrite List_filter_nil_iff in E.
    specialize (E x Hx). by apply has_false in E.
  - right. exists y.
    assert (y ∈ List.filter (λ x, JSSet.has new x) cur) as Hy
      by (rewrite E; by left).
    apply List_filter_elem_of in Hy as [Hy Hn]. by apply has_true in Hn.
Qed.

Lemma outcome_condition_holds cur new d :
  NoDup cur → outcome_condition cur new d (Rev2.groupCase cur new d).
Proof.
  intros Hnd.
  destruct (Rev2.groupCase cur new d) eqn:E.
  - by apply groupCase_NoChange_iff in E.
  - assert (Rev2.groupCase cur new d ≠ NoChange) as H0 by congruence.
    assert (Rev2.groupCase cur new d ≠ NoCompatibleUnits) as H1 by congruence.
    rewrite groupCase_NoChange_iff in H0 by done.
    rewrite groupCase_NoCompatibleUnits_iff, list_intersection_nil_iff in H1
      by done.
    simpl. split_and!.
    + destruct (lost_or_kept cur new); [by destruct H0|done].
    + destruct (kept_or_lost cur new) as [Hall|]; [|done].
      destruct H1. split; [done|]. intros ->. destruct H0.
      by intros x ?%elem_of_nil.
    + rewrite groupCase_unfold in E. repeat case_bool_decide; try done.
      * simpl in E. destruct (JSSet.has _ d) eqn:Ehas; [done|].
        apply has_false in Ehas. rewrite elem_of_lostUnits in Ehas.
        destruct (decide (d ∈ cur)); [|tauto].
        destruct (decide (d ∈ new)); tauto.
      * left. by destruct (decide (d = (-99)%Z)).
  - assert (Rev2.groupCase cur new d ≠ NoCompatibleUnits) as H1 by congruence.
    rewrite groupCase_NoCompatibleUnits_iff, list_intersection_nil_iff in H1
      by done.
    rewrite groupCase_unfold in E. repeat case_bool_decide; try done.
    simpl in E. destruct (JSSet.has _ d) eqn:Ehas; [|done].
    apply has_true, elem_of_lostUnits in Ehas as [Hd Hn]. simpl. split_and!; try done.
    destruct (kept_or_lost cur new) as [Hall|]; [|done].
    destruct H1. split; [done|]. intros ->. by apply elem_of_nil in Hd.
  - apply groupCase_NoCompatibleUnits_iff in E as [Hi Hne]; [|done].
    rewrite list_intersection_nil_iff in Hi. simpl. split; [|done].
    destruct cur as [|x cur]; [done|]. exists x. by left.
Qed.

Lemma outcome_condition_exclusive cur new d c1 c2 :
  outcome_condition cur new d c1 → outcome_condition cur new d c2 → c1 = c2.
Proof.
  destruct c1, c2; simpl; try done;
    intros H1 H2; exfalso; destruct_and?;
    repeat match goal with H : ∃ _, _ |- _ => destruct H as [? ?] end;
    destruct_and?; destruct_or?; eauto; firstorder.
Qed.

Lemma groupCase_outcome_iff cur new d c :
  NoDup cur → Rev2.groupCase cur new d = c ↔ outcome_condition cur new d c.
Proof.
  intros Hnd. split.
  - intros <-. by apply outcome_condition_holds.
  - intros Hc. eapply outcome_condition_exclusive; [|exact Hc].
    by apply outcome_condition_holds.
Qed.

(** X3: [groupCase] returns [LostDefaultGraphicUnit] exactly when some current
    unit is kept, and the default unit is not -99, is a current unit and is
    not among the new units; and [LostCompatibleUnits] exactly when some
    current unit is lost, some is kept, and the default unit is -99, or is not
    a current unit, or is among the new units. With the default unit -99 or
    outside the current units the outcome is never [LostDefaultGraphicUnit].
    Both revisions, for a set [currentUnits]. *)
Theorem groupCase_partial_loss_iff
    (currentUnits newUnits : list Z) (defaultGraphicUnit : Z) :
  NoDup currentUnits →
  Rev1.groupCase currentUnits newUnits defaultGraphicUnit
  = Rev2.groupCase currentUnits newUnits defaultGraphicUnit
  ∧ (Rev2.groupCase currentUnits newUnits defaultGraphicUnit
     = LostDefaultGraphicUnit
     ↔ (∃ x, x ∈ currentUnits ∧ x ∈ newUnits)
       ∧ defaultGraphicUnit ≠ (-99)%Z
       ∧ defaultGraphicUnit ∈ currentUnits ∧ defaultGraphicUnit ∉ newUnits)
  ∧ (Rev2.groupCase currentUnits newUnits defaultGraphicUnit
     = LostCompatibleUnits
     ↔ (∃ x, x ∈ currentUnits ∧ x ∉ newUnits)
       ∧ (∃ x, x ∈ currentUnits ∧ x ∈ newUnits)
       ∧ (defaultGraphicUnit = (-99)%Z ∨ defaultGraphicUnit ∉ currentUnits
          ∨ defaultGraphicUnit ∈ newUnits))
  ∧ (defaultGraphicUnit = (-99)%Z ∨ defaultGraphicUnit ∉ currentUnits →
     Rev2.groupCase currentUnits newUnits defaultGraphicUnit
     ≠ LostDefaultGraphicUnit).
Proof.
  intros Hnd. split_and!.
  - reflexivity.
  - by apply (groupCase_outcome_iff _ _ _ LostDefaultGraphicUnit).
  - by apply (groupCase_outcome_iff _ _ _ LostCompatibleUnits).
  - intros Hd E.
    apply (groupCase_outcome_iff _ _ _ LostDefaultGraphicUnit) in E; [|done].
    destruct E as (_ & ? & ? & _). tauto.
Qed.

Lemma groupCase_partial_loss_iff_witness :
  Rev2.groupCase [1%Z; 2%Z; 3%Z] [4%Z; 2%Z; 3%Z; 1%Z] 7
  ≠ LostDefaultGraphicUnit.
Proof.
  pose proof (groupCase_partial_loss_iff [1%Z; 2%Z; 3%Z] [4%Z; 2%Z; 3%Z; 1%Z] 7
                NoDup_123) as (_ & _ & _ & Hnever).
  apply Hnever. right. intros H. apply list_elem_of_In in H. simpl in H.
  destruct H as [H|[H|[H|[]]]]; discriminate H.
Defined.

Lemma setIntersect_eq_self_iff cur new :
  NoDup cur → Rev2.setIntersect cur new = cur ↔ ∀ x, x ∈ cur → x ∈ new.
Proof.
  intros Hnd. rewrite setIntersect_filter, List_filter_id_iff by done.
  apply forall_proper. intros x. by rewrite has_true.
Qed.

Lemma setIntersect_eq_nil_iff cur new :
  NoDup cur → Rev2.setIntersect cur new = [] ↔ ∀ x, x ∈ cur → x ∉ new.
Proof.
  intros Hnd. rewrite setIntersect_filter, List_filter_nil_iff by done.
  apply forall_proper. intros x. by rewrite has_false.
Qed.

(** X4: The outcome of [groupCase] read against [after], the units that remain
    once the candidate is added ([setIntersect(currentUnits, newUnits)]):
    [NoChange] exactly when [after] is [currentUnits]; [NoCompatibleUnits]
    exactly when [after] is empty and [currentUnits] is not;
    [LostDefaultGraphicUnit] exactly when [after] is not empty and the
    default unit is not -99, is a current unit and is not in [after];
    [LostCompatibleUnits] exactly when [after] is neither empty nor
    [currentUnits], and the default unit is -99, is no current unit or is
    still in [after]. For a set [currentUnits]. *)
Theorem groupCase_by_remaining_units
    (currentUnits newUnits : list Z) (defaultGraphicUnit : Z) :
  NoDup currentUnits →
  let after := Rev2.setIntersect currentUnits newUnits in
  (Rev2.groupCase currentUnits newUnits defaultGraphicUnit = NoChange
   ↔ after = currentUnits)
  ∧ (Rev2.groupCase currentUnits newUnits defaultGraphicUnit = NoCompatibleUnits
     ↔ after = [] ∧ currentUnits ≠ [])
  ∧ (Rev2.groupCase currentUnits newUnits defaultGraphicUnit
     = LostDefaultGraphicUnit
     ↔ after ≠ [] ∧ defaultGraphicUnit ≠ (-99)%Z
       ∧ defaultGraphicUnit ∈ currentUnits ∧ defaultGraphicUnit ∉ after)
  ∧ (Rev2.groupCase currentUnits newUnits defaultGraphicUnit
     = LostCompatibleUnits
     ↔ after ≠ [] ∧ after ≠ currentUnits
       ∧ (defaultGraphicUnit = (-99)%Z ∨ defaultGraphicUnit ∉ currentUnits
          ∨ defaultGraphicUnit ∈ after)).
Proof.
  intros Hnd after.
  assert (after ≠ [] ↔ ∃ x, x ∈ currentUnits ∧ x ∈ newUnits) as Hkept.
  { unfold after. rewrite setIntersect_eq_nil_iff by done. split.
    - intros H. destruct (kept_or_lost currentUnits newUnits); [done|done].
    - intros (x & Hx & Hn) H. by apply (H x). }
  assert (after ≠ currentUnits ↔ ∃ x, x ∈ currentUnits ∧ x ∉ newUnits) as Hlost.
  { unfold after. rewrite setIntersect_eq_self_iff by done. split.
    - intros H. destruct (lost_or_kept currentUnits newUnits); [done|done].
    - intros (x & Hx & Hn) H. by apply Hn, H. }
  assert (∀ x, x ∈ after ↔ x ∈ currentUnits ∧ x ∈ newUnits) as Hin.
  { intros x. apply elem_of_setIntersect. }
  rewrite !groupCase_outcome_iff by done. simpl.
  rewrite Hkept, Hlost, !Hin. unfold after.
  rewrite setIntersect_eq_self_iff, setIntersect_eq_nil_iff by done.
  split_and!.
  - done.
  - split.
    + intros [[x Hx] Hall]. split; [done|]. intros ->. by apply elem_of_nil in Hx.
    + intros [Hall Hne]. split; [|done].
      destruct currentUnits as [|x l]; [done|]. exists x. by left.
  - tauto.
  - destruct (decide (defaultGraphicUnit ∈ currentUnits)); tauto.
Qed.

Lemma groupCase_by_remaining_units_witness :
  Rev2.groupCase [1%Z; 2%Z; 3%Z] [4%Z; 2%Z; 3%Z; 1%Z] 1 = NoChange
  ↔ Rev2.setIntersect [1%Z; 2%Z; 3%Z] [4%Z; 2%Z; 3%Z; 1%Z] = [1%Z; 2%Z; 3%Z].
Proof.
  pose proof (groupCase_by_remaining_units [1%Z; 2%Z; 3%Z] [4%Z; 2%Z; 3%Z; 1%Z] 1
                NoDup_123) as (H & _).
  exact H.
Defined.

Lemma outcome_condition_same_set cur cur' new new' d c :
  same_set cur cur' → same_set new new' →
  outcome_condition cur new d c → outcome_condition cur' new' d c.
Proof.
  intros Hc Hn. unfold same_set in *.
  destruct c; simpl.
  - intros H x Hx. apply Hn, H, Hc, Hx.
  - intros ((x & Hx & Hx') & (y & Hy & Hy') & Hd). split_and!.
    + exists x. rewrite <- Hc, <- Hn. done.
    + exists y. rewrite <- Hc, <- Hn. done.
    + rewrite <- Hc, <- Hn. done.
  - intros ((y & Hy & Hy') & Hd). split.
    + exists y. rewrite <- Hc, <- Hn. done.
    + rewrite <- Hc, <- Hn. done.
  - intros [[x Hx] Hall]. split.
    + exists x. by apply Hc.
    + intros y Hy. rewrite <- Hn. apply Hall. by apply Hc.
Qed.

(** X5: The outcome of [groupCase] depends on its two sets only through their
    elements: listing the same units in another order gives the same
    outcome. *)
Theorem groupCase_order_independent
    (currentUnits currentUnits' newUnits newUnits' : list Z)
    (defaultGraphicUnit : Z) :
  NoDup currentUnits → NoDup currentUnits' →
  same_set currentUnits currentUnits' → same_set newUnits newUnits' →
  Rev2.groupCase currentUnits newUnits defaultGraphicUnit
  = Rev2.groupCase currentUnits' newUnits' defaultGraphicUnit.
Proof.
  intros Hnd Hnd' Hc Hn. symmetry. apply groupCase_outcome_iff; [done|].
  apply (outcome_condition_same_set currentUnits _ newUnits); [done..|].
  by apply outcome_condition_holds.
Qed.

Lemma NoDup_321 : NoDup [3%Z; 2%Z; 1%Z].
Proof. apply (bool_decide_unpack _). vm_compute. exact I. Defined.

Lemma same_set_123_321 : same_set [1%Z; 2%Z; 3%Z] [3%Z; 2%Z; 1%Z].
Proof. intros x. rewrite !list_elem_of_In. simpl. tauto. Defined.

Lemma same_set_refl (s : list Z) : same_set s s.
Proof. intros x. apply iff_refl. Defined.

Lemma groupCase_order_independent_witness :
  Rev2.groupCase [1%Z; 2%Z; 3%Z] [2%Z; 4%Z] 1
  = Rev2.groupCase [3%Z; 2%Z; 1%Z] [2%Z; 4%Z] 1.
Proof.
  exact (groupCase_order_independent [1%Z; 2%Z; 3%Z] [3%Z; 2%Z; 1%Z]
           [2%Z; 4%Z] [2%Z; 4%Z] 1 NoDup_123 NoDup_321 same_set_123_321
           (same_set_refl _)).
Defined.

(** ** Lookups in the unit catalog *)

Lemma lodash_find_is_Some {A : Type} (coll : list A) (pred : A → bool) x :
  x ∈ coll → pred x = true → ∃ o, lodash_find coll pred = Some o.
Proof.
  intros Hx Hp. destruct (lodash_find coll pred) as [o|] eqn:E; [by exists o|].
  rewrite lodash_find_None in E. specialize (E x Hx). congruence.
Qed.


Lemma pRowFromUnit_Return_inv env unitId row :
  Rev2.pRowFromUnit env unitId = Return row →
  ∃ o, o ∈ units_units (getState env) ∧ unit_id o = unitId
       ∧ unit_typeOfUnit o = meter ∧ unit_unitIndex o = row.
Proof.
  unfold Rev2.pRowFromUnit.
  destruct (lodash_find _ _) as [o|] eqn:E; [|done]. simpl. intros [= <-].
  apply lodash_find_Some in E as [Ho Hp].
  apply andb_true_iff in Hp as [H1%bool_decide_eq_true H2%bool_decide_eq_true].
  by exists o.
Qed.

Lemma unitFromPRow_Return_inv env row x :
  Rev2.unitFromPRow env row = Return x →
  ∃ o, o ∈ units_units (getState env) ∧ unit_unitIndex o = row
       ∧ unit_typeOfUnit o = meter ∧ unit_id o = x.
Proof.
  unfold Rev2.unitFromPRow.
  destruct (lodash_find _ _) as [o|] eqn:E; [|done]. simpl. intros [= <-].
  apply lodash_find_Some in E as [Ho Hp].
  apply andb_true_iff in Hp as [H1%bool_decide_eq_true H2%bool_decide_eq_true].
  by exists o.
Qed.

Lemma unitFromPRow_returns env row :
  row_unit_in_catalog env row → ∃ x, Rev2.unitFromPRow env row = Return x.
Proof.
  intros (o & Ho & Hidx & Hty). unfold Rev2.unitFromPRow.
  destruct (lodash_find_is_Some (units_units (getState env)) (λ o,
    bool_decide (unit_unitIndex o = row)
    && bool_decide (unit_typeOfUnit o = meter)) o Ho) as [o' ->].
  { by rewrite !bool_decide_eq_true_2. }
  by eexists.
Qed.

Lemma unitFromPColumn_returns env column :
  column_unit_in_catalog env column →
  ∃ x, Rev2.unitFromPColumn env column = Return x.
Proof.
  intros (o & Ho & Hidx & Hty). unfold Rev2.unitFromPColumn.
  destruct (lodash_find_is_Some (units_units (getState env)) (λ o,
    bool_decide (unit_unitIndex o = column)
    && bool_decide (unit_typeOfUnit o ≠ meter)) o Ho) as [o' ->].
  { by rewrite !bool_decide_eq_true_2. }
  by eexists.
Qed.



(** X7: Round trip from a unit id to its row and back: where no two meter-typed
    units share a row index, [unitFromPRow] of the row [pRowFromUnit] returns
    for a unit id is that id. *)
Theorem unitFromPRow_pRowFromUnit (env : Env) (unitId row : Z) :
  meter_rows_unique env →
  Rev2.pRowFromUnit env unitId = Return row →
  Rev2.unitFromPRow env row = Return unitId
  ∧ Rev1.unitFromPRow env row = Return unitId.
Proof.
  intros Huniq (o & Ho & Hid & Hty & Hidx)%pRowFromUnit_Return_inv.
  destruct (unitFromPRow_returns env row) as [x Hx]; [by exists o|].
  assert (x = unitId) as <-; [|done].
  pose proof Hx as (o' & Ho' & Hidx' & Hty' & <-)%unitFromPRow_Return_inv.
  rewrite <- Hid. apply Huniq; congruence.
Qed.

(** X8: Round trip from a row to its unit id and back: where no two meter-typed
    units share an id, [pRowFromUnit] of the id [unitFromPRow] returns for a
    row is that row. *)
Theorem pRowFromUnit_unitFromPRow (env : Env) (row unitId : Z) :
  meter_ids_unique env →
  Rev2.unitFromPRow env row = Return unitId →
  Rev2.pRowFromUnit env unitId = Return row
  ∧ Rev1.pRowFromUnit env unitId = Return row.
Proof.
  intros Huniq (o & Ho & Hidx & Hty & Hid)%unitFromPRow_Return_inv.
  destruct (pRowFromUnit_Return env unitId) as (o' & Ho' & Hid' & Hty' & Hret);
    [by exists o|].
  assert (unit_unitIndex o' = row) as <-; [|done].
  rewrite <- Hidx. apply Huniq; congruence.
Qed.

Lemma site_meter_units o :
  o ∈ units_units (getState site) → unit_typeOfUnit o = meter →
  o = mkUnitData 1 0 meter ∨ o = mkUnitData 2 1 meter.
Proof.
  intros Ho Hty. apply list_elem_of_In in Ho. simpl in Ho.
  destruct Ho as [<-|[<-|[<-|[<-|[<-|[]]]]]]; try discriminate Hty; tauto.
Defined.

Lemma site_meter_rows_unique : meter_rows_unique site.
Proof.
  intros o1 o2 H1 H2 T1 T2.
  destruct (site_meter_units o1 H1 T1) as [->| ->],
           (site_meter_units o2 H2 T2) as [->| ->]; simpl; intros H;
    first [reflexivity | discriminate H].
Defined.

Lemma site_meter_ids_unique : meter_ids_unique site.
Proof.
  intros o1 o2 H1 H2 T1 T2.
  destruct (site_meter_units o1 H1 T1) as [->| ->],
           (site_meter_units o2 H2 T2) as [->| ->]; simpl; intros H;
    first [reflexivity | discriminate H].
Defined.

Lemma unitFromPRow_pRowFromUnit_witness :
  Rev2.pRowFromUnit site 2 = Return 1%Z
  ∧ Rev2.unitFromPRow site 1 = Return 2%Z.
Proof.
  assert (Rev2.pRowFromUnit site 2 = Return 1%Z) as H by reflexivity.
  split; [exact H|].
  exact (proj1 (unitFromPRow_pRowFromUnit site 2 1 site_meter_rows_unique H)).
Defined.

Lemma pRowFromUnit_unitFromPRow_witness :
  Rev2.unitFromPRow site 1 = Return 2%Z
  ∧ Rev2.pRowFromUnit site 2 = Return 1%Z.
Proof.
  assert (Rev2.unitFromPRow site 1 = Return 2%Z) as H by reflexivity.
  split; [exact H|].
  exact (proj1 (pRowFromUnit_unitFromPRow site 1 2 site_meter_ids_unique H)).
Defined.

(** ** The unit resolver, column by column *)

Lemma unitsCompatibleWithUnit_columns env unitId :
  unitId ≠ (-99)%Z → pikAvailable (conversionArray env) = true →
  Rev2.unitsCompatibleWithUnit env unitId =
    (row ← Rev2.pRowFromUnit env unitId;
     pik0 ← deref (Array_get (pik (conversionArray env)) 0);
     forEach (unitLoopBody env row) (seqZ 0 (Z.of_nat (length pik0))) []).
Proof. apply unitsCompatibleWithUnit_loop. Qed.

Lemma forEach_each_Return {A S : Type} (body : S → A → Completion S) l s r :
  forEach body l s = Return r →
  ∀ x, x ∈ l → ∃ s0 s1, body s0 x = Return s1.
Proof.
  revert s. induction l as [|y l IH]; intros s; simpl.
  - by intros _ x ?%elem_of_nil.
  - intros (s' & Hy & Hrest)%bind_Return_inv x [->|Hx]%elem_of_cons; eauto.
Qed.

Lemma unitLoopBody_Return env row s0 k s1 :
  unitLoopBody env row s0 k = Return s1 →
  ∃ pikRow, Array_get (pik (conversionArray env)) row = Some pikRow
    ∧ ((Array_get pikRow k = Some true
        ∧ ∃ u, Rev2.unitFromPColumn env k = Return u ∧ s1 = JSSet.add s0 u)
       ∨ (Array_get pikRow k ≠ Some true ∧ s1 = s0)).
Proof.
  unfold unitLoopBody.
  intros (pikRow & HpikRow%deref_Return_inv & Hbody)%bind_Return_inv.
  exists pikRow. split; [done|].
  destruct (Array_get pikRow k) as [[|]|]; simpl in Hbody.
  - left. split; [done|].
    apply bind_Return_inv in Hbody as (u & Hu & [= <-]). by exists u.
  - right. by injection Hbody as <-.
  - right. by injection Hbody as <-.
Qed.

Lemma unitLoop_elements env row ks s0 s :
  forEach (unitLoopBody env row) ks s0 = Return s →
  ∀ x, x ∈ s ↔ x ∈ s0 ∨ ∃ k, k ∈ ks ∧ pik_true env row k
                             ∧ Rev2.unitFromPColumn env k = Return x.
Proof.
  revert s0. induction ks as [|k ks IH]; intros s0; simpl.
  - intros [= <-] x. split; [by left|]. intros [?|(k & ?%elem_of_nil & _)]; done.
  - intros (s1 & Hbody & Hrest)%bind_Return_inv x.
    rewrite (IH _ Hrest).
    apply unitLoopBody_Return in Hbody
      as (pikRow & HpikRow & [(Htrue & u & Hu & ->)|(Hfalse & ->)]).
    + rewrite elem_of_add. split.
      * intros [[?| ->]|(k' & Hk' & Ht & Hx)].
        -- by left.
        -- right. exists k. split_and!; [by left| |done]. by exists pikRow.
        -- right. exists k'. split_and!; [by right|done..].
      * intros [?|(k' & [->|Hk']%elem_of_cons & Ht & Hx)].
        -- by left; left.
        -- left. right. congruence.
        -- right. by exists k'.
    + split.
      * intros [?|(k' & Hk' & Ht & Hx)]; [by left|].
        right. exists k'. split_and!; [by right|done..].
      * intros [?|(k' & [->|Hk']%elem_of_cons & Ht & Hx)]; [by left| |].
        -- destruct Ht as (pikRow' & HpikRow' & Ht). congruence.
        -- right. by exists k'.
Qed.

Lemma unitLoop_size env row ks s0 s :
  forEach (unitLoopBody env row) ks s0 = Return s →
  length s ≤ length s0 + length ks.
Proof.
  revert s0. induction ks as [|k ks IH]; intros s0; simpl.
  - intros [= <-]. lia.
  - intros (s1 & Hbody & Hrest)%bind_Return_inv. apply IH in Hrest.
    apply unitLoopBody_Return in Hbody
      as (pikRow & HpikRow & [(Htrue & u & Hu & ->)|(Hfalse & ->)]); [|lia].
    unfold JSSet.add in Hrest. destruct (JSSet.has s0 u); [lia|].
    rewrite length_app in Hrest. simpl in Hrest. lia.
Qed.

Lemma pik_column_seqZ env k pik0 :
  Array_get (pik (conversionArray env)) 0 = Some pik0 →
  k ∈ seqZ 0 (Z.of_nat (length pik0)) ↔ pik_column env k.
Proof.
  intros Hpik0. rewrite elem_of_seqZ. split.
  - intros Hk. exists pik0. split; [done|lia].
  - intros (pik0' & Hpik0' & Hk). assert (pik0' = pik0) as -> by congruence. lia.
Qed.

(** X9: With the relation available and a unit id other than -99, what
    [unitsCompatibleWithUnit] returns holds exactly the ids [unitFromPColumn]
    gives for the columns [k < pik[0].length] whose cell in the unit's row
    is [true]; it has at most as many elements as the relation's first row
    has columns. Both revisions. *)
Theorem unitsCompatibleWithUnit_elements (env : Env) (unitId : Z) (s : list Z) :
  unitId ≠ (-99)%Z → pikAvailable (conversionArray env) = true →
  Rev1.unitsCompatibleWithUnit env unitId = Return s
  ∨ Rev2.unitsCompatibleWithUnit env unitId = Return s →
  ∃ row pik0,
    Rev2.pRowFromUnit env unitId = Return row
    ∧ Array_get (pik (conversionArray env)) 0 = Some pik0
    ∧ (∀ x, x ∈ s ↔ ∃ k, pik_column env k ∧ pik_true env row k
                         ∧ Rev2.unitFromPColumn env k = Return x)
    ∧ JSSet.size s ≤ length pik0.
Proof.
  rewrite rev_unitsCompatibleWithUnit. intros Hu Hready Hs.
  assert (Rev2.unitsCompatibleWithUnit env unitId = Return s) as Hret by tauto.
  clear Hs. rewrite unitsCompatibleWithUnit_columns in Hret by done.
  apply bind_Return_inv in Hret as (row & Hrow & Hret).
  apply bind_Return_inv in Hret as (pik0 & Hpik0%deref_Return_inv & Hloop).
  exists row, pik0. split_and!; [done..| |].
  - intros x. rewrite (unitLoop_elements _ _ _ _ _ Hloop). split.
    + intros [?%elem_of_nil|(k & Hk & Ht & Hx)]; [done|].
      exists k. by rewrite <- (pik_column_seqZ env k pik0 Hpik0).
    + intros (k & Hk & Ht & Hx). right. exists k.
      by rewrite (pik_column_seqZ env k pik0 Hpik0).
  - apply unitLoop_size in Hloop. rewrite length_seqZ in Hloop.
    unfold JSSet.size. simpl in Hloop. lia.
Qed.

Lemma unitsCompatibleWithUnit_elements_witness :
  ∃ row pik0,
    Rev2.pRowFromUnit site 1 = Return row
    ∧ Array_get (pik (conversionArray site)) 0 = Some pik0
    ∧ (∀ x, x ∈ [5%Z; 7%Z] ↔ ∃ k, pik_column site k ∧ pik_true site row k
                                  ∧ Rev2.unitFromPColumn site k = Return x)
    ∧ JSSet.size [5%Z; 7%Z] ≤ length pik0.
Proof.
  assert (1 ≠ -99)%Z as Hu by lia.
  assert (pikAvailable (conversionArray site) = true) as Hready by reflexivity.
  assert (Rev2.unitsCompatibleWithUnit site 1 = Return [5%Z; 7%Z]) as Hs
    by reflexivity.
  exact (unitsCompatibleWithUnit_elements site 1 [5%Z; 7%Z] Hu Hready
           (or_intror Hs)).
Defined.

Lemma unitLoopBody_returns env row pikRow s0 k :
  Array_get (pik (conversionArray env)) row = Some pikRow →
  (pik_true env row k → column_unit_in_catalog env k) →
  ∃ s1, unitLoopBody env row s0 k = Return s1.
Proof.
  intros HpikRow Hcol. unfold unitLoopBody. rewrite HpikRow. simpl.
  destruct (Array_get pikRow k) as [[|]|] eqn:E; simpl; try by eexists.
  destruct (unitFromPColumn_returns env k) as [u ->]; [|by eexists].
  apply Hcol. by exists pikRow.
Qed.

(** X10: With the relation available and a unit id other than -99,
    [unitsCompatibleWithUnit] returns a set exactly when the id is that of a
    meter-typed unit, the relation has a first row, the unit's row exists
    unless the first row is empty, and every column that is [true] in the
    unit's row is the index of a unit of another type; in every other case
    it throws. Both revisions. *)
Theorem unitsCompatibleWithUnit_returns_iff (env : Env) (unitId : Z) :
  unitId ≠ (-99)%Z → pikAvailable (conversionArray env) = true →
  Rev1.unitsCompatibleWithUnit env unitId = Rev2.unitsCompatibleWithUnit env unitId
  ∧ ((∃ s, Rev2.unitsCompatibleWithUnit env unitId = Return s)
     ↔ ∃ row pik0,
         Rev2.pRowFromUnit env unitId = Return row
         ∧ Array_get (pik (conversionArray env)) 0 = Some pik0
         ∧ (pik0 = [] ∨ ∃ pikRow,
              Array_get (pik (conversionArray env)) row = Some pikRow)
         ∧ ∀ k, pik_column env k → pik_true env row k →
                column_unit_in_catalog env k)
  ∧ (Rev2.unitsCompatibleWithUnit env unitId = Throw TypeError
     ↔ ¬ ∃ s, Rev2.unitsCompatibleWithUnit env unitId = Return s).
Proof.
  intros Hu Hready. split_and!; [reflexivity| |].
  - rewrite unitsCompatibleWithUnit_columns by done. split.
    + intros (s & (row & Hrow & (pik0 & Hpik0%deref_Return_inv & Hloop
        )%bind_Return_inv)%bind_Return_inv).
      exists row, pik0. split_and!; [done..| |].
      * destruct pik0 as [|b pik0]; [by left|]. right.
        destruct (forEach_each_Return _ _ _ _ Hloop 0%Z) as (s0 & s1 & Hbody).
        { apply elem_of_seqZ. simpl. lia. }
        apply unitLoopBody_Return in Hbody as (pikRow & ? & _). by exists pikRow.
      * intros k Hk Ht.
        destruct (forEach_each_Return _ _ _ _ Hloop k) as (s0 & s1 & Hbody).
        { by apply (pik_column_seqZ env k pik0). }
        apply unitLoopBody_Return in Hbody
          as (pikRow & HpikRow & [(_ & u & Hu' & _)|(Hfalse & _)]).
        -- apply unitFromPColumn_Return_inv in Hu' as (o & ? & ? & ? & _).
           by exists o.
        -- destruct Ht as (pikRow' & HpikRow' & Ht). congruence.
    + intros (row & pik0 & Hrow & Hpik0 & Hshape & Hcols).
      rewrite Hrow. simpl. rewrite Hpik0. simpl.
      apply forEach_Return. intros s0 k Hk.
      destruct Hshape as [->|[pikRow HpikRow]].
      { rewrite elem_of_seqZ in Hk. simpl in Hk. lia. }
      apply (unitLoopBody_returns env row pikRow); [done|].
      apply Hcols. by apply (pik_column_seqZ env k pik0).
  - destruct (Rev2.unitsCompatibleWithUnit env unitId) as [s|[]]; split; try done.
    + intros H. destruct H. by exists s.
    + by intros _ [s ?].
Qed.

Lemma unitsCompatibleWithUnit_returns_iff_witness :
  Rev2.unitsCompatibleWithUnit site_broken 1 = Throw TypeError
  ↔ ¬ ∃ s, Rev2.unitsCompatibleWithUnit site_broken 1 = Return s.
Proof.
  assert (1 ≠ -99)%Z as Hu by lia.
  assert (pikAvailable (conversionArray site_broken) = true) as Hready
    by reflexivity.
  exact (proj2 (proj2 (unitsCompatibleWithUnit_returns_iff site_broken 1 Hu Hready))).
Defined.

(** X11: How the shape of an available relation shows in
    [unitsCompatibleWithUnit], for a unit id other than -99: a relation
    without any row makes it throw; a relation whose first row is empty makes
    it return the empty set for every meter-typed unit, whatever its row; a
    unit whose row is outside the relation makes it throw as soon as the
    first row has a column. Both revisions. *)
Theorem unitsCompatibleWithUnit_relation_shape (env : Env) (unitId : Z) :
  unitId ≠ (-99)%Z → pikAvailable (conversionArray env) = true →
  Rev1.unitsCompatibleWithUnit env unitId = Rev2.unitsCompatibleWithUnit env unitId
  ∧ (pik (conversionArray env) = [] →
     Rev2.unitsCompatibleWithUnit env unitId = Throw TypeError)
  ∧ (meter_unit_in_catalog env unitId →
     Array_get (pik (conversionArray env)) 0 = Some [] →
     Rev2.unitsCompatibleWithUnit env unitId = Return [])
  ∧ (∀ row pik0,
       Rev2.pRowFromUnit env unitId = Return row →
       Array_get (pik (conversionArray env)) 0 = Some pik0 → pik0 ≠ [] →
       Array_get (pik (conversionArray env)) row = None →
       Rev2.unitsCompatibleWithUnit env unitId = Throw TypeError).
Proof.
  intros Hu Hready. split; [reflexivity|].
  rewrite unitsCompatibleWithUnit_columns by done. split_and!.
  - intros Hpik. rewrite Hpik.
    by destruct (Rev2.pRowFromUnit env unitId) as [row|[]].
  - intros (o & _ & _ & _ & ->)%pRowFromUnit_Return Hpik0. simpl.
    by rewrite Hpik0.
  - intros row pik0 Hrow Hpik0 Hne Hnone. rewrite Hrow. simpl.
    rewrite Hpik0. simpl. apply (forEach_Throw _ _ 0%Z).
    + apply elem_of_seqZ. destruct pik0; [done|]. simpl. lia.
    + intros s'. unfold unitLoopBody. by rewrite Hnone.
Qed.

Lemma unitsCompatibleWithUnit_relation_shape_witness :
  Rev2.unitsCompatibleWithUnit site_no_rows 1 = Throw TypeError.
Proof.
  assert (1 ≠ -99)%Z as Hu by lia.
  assert (pikAvailable (conversionArray site_no_rows) = true) as Hready
    by reflexivity.
  pose proof (unitsCompatibleWithUnit_relation_shape site_no_rows 1 Hu Hready)
    as (_ & H & _).
  apply H. reflexivity.
Defined.

(** ** Composition of meter sets *)

Lemma intersectMeters_app env acc ms1 ms2 :
  intersectMeters env acc (ms1 ++ ms2)
  = (acc' ← intersectMeters env acc ms1; intersectMeters env acc' ms2).
Proof. unfold intersectMeters. apply forEach_app. Qed.

Lemma intersectMeters_filter env acc ms s :
  NoDup acc → intersectMeters env acc ms = Return s →
  ∃ p : Z → bool, s = List.filter p acc.
Proof.
  unfold intersectMeters. revert acc.
  induction ms as [|m ms IH]; intros acc Hnd; simpl.
  - intros [= <-]. exists (λ _, true). symmetry. by apply List_filter_id_iff.
  - intros (acc' & (u & Hu & [= <-])%bind_Return_inv & Hrest)%bind_Return_inv.
    apply IH in Hrest as [p ->]; [|apply setIntersect_NoDup].
    rewrite setIntersect_filter, List_filter_filter by done. by eexists.
Qed.

Lemma List_filter_same_elements (p q : Z → bool) l :
  (∀ x, x ∈ List.filter p l ↔ x ∈ List.filter q l) →
  List.filter p l = List.filter q l.
Proof.
  intros H. apply List_filter_ext_elem_of. intros x Hx.
  specialize (H x). rewrite !List_filter_elem_of in H.
  apply eq_true_iff_eq. tauto.
Qed.

(** X12: The units compatible with a set of meters made of two non-empty
    parts, the meters of the first visited before those of the second, are
    the intersection, by [setIntersect], of the units compatible with each
    part: the resolver returns exactly that set whenever both parts
    resolve. *)
Theorem unitsCompatibleWithMeters_app (env : Env) (ms1 ms2 s1 s2 : list Z) :
  NoDup (ms1 ++ ms2) → ms1 ≠ [] → ms2 ≠ [] →
  Rev2.unitsCompatibleWithMeters env ms1 = Return s1 →
  Rev2.unitsCompatibleWithMeters env ms2 = Return s2 →
  Rev2.unitsCompatibleWithMeters env (ms1 ++ ms2)
  = Return (Rev2.setIntersect s1 s2)
  ∧ Rev1.unitsCompatibleWithMeters env (ms1 ++ ms2)
    = Return (Rev1.setIntersect s1 s2).
Proof.
  intros _ Hne1 Hne2 Hs1 Hs2.
  assert (Rev2.unitsCompatibleWithMeters env (ms1 ++ ms2)
          = Return (Rev2.setIntersect s1 s2)) as H; [|split; exact H].
  pose proof (unitsCompatibleWithMeters_NoDup _ _ _ Hs1) as Hnd1.
  destruct ms1 as [|m ms1]; [done|]. simpl.
  rewrite unitsCompatibleWithMeters_cons in Hs1 |- *.
  apply bind_Return_inv in Hs1 as (u & Hu & Hs1). rewrite Hu. simpl.
  rewrite intersectMeters_app, Hs1. simpl.
  destruct (intersectMeters_returns env s1 ms2) as [s Hs].
  { by apply unitsCompatibleWithMeters_returns; exists s2. }
  rewrite Hs. f_equal.
  destruct (intersectMeters_filter _ _ _ _ Hnd1 Hs) as [p ->].
  rewrite setIntersect_filter by done.
  apply List_filter_same_elements. intros x.
  apply intersectMeters_Return in Hs as [_ Hmem]. rewrite Hmem.
  rewrite List_filter_elem_of, has_true.
  by rewrite (unitsCompatibleWithMeters_elem_of env ms2 s2 Hne2 Hs2).
Qed.

Lemma unitsCompatibleWithMeters_app_witness :
  Rev2.unitsCompatibleWithMeters site [1%Z; 4%Z] = Return [5%Z; 7%Z]
  ∧ Rev2.unitsCompatibleWithMeters site [2%Z] = Return [6%Z]
  ∧ Rev2.unitsCompatibleWithMeters site ([1%Z; 4%Z] ++ [2%Z])
    = Return (Rev2.setIntersect [5%Z; 7%Z] [6%Z]).
Proof.
  assert (Rev2.unitsCompatibleWithMeters site [1%Z; 4%Z] = Return [5%Z; 7%Z])
    as H1 by reflexivity.
  assert (Rev2.unitsCompatibleWithMeters site [2%Z] = Return [6%Z])
    as H2 by reflexivity.
  split_and!; [exact H1|exact H2|].
  apply (unitsCompatibleWithMeters_app site [1%Z; 4%Z] [2%Z] [5%Z; 7%Z] [6%Z]);
    [|discriminate|discriminate|exact H1|exact H2].
  apply (bool_decide_unpack _). vm_compute. exact I.
Defined.

Lemma not_nil_elem_of (l : list Z) : l ≠ [] ↔ ∃ x, x ∈ l.
Proof.
  destruct l as [|x l]; split; try done.
  - by intros [x ?%elem_of_nil].
  - intros _. exists x. by left.
Qed.

(** X13: What the classifier announces is what happens to the group: for a
    group with deep meters [meters] and a candidate with meters [meters'],
    both non-empty and resolving to [currentUnits] and [newUnits], the
    resolver on any set [both] holding the meters of the two returns a set
    [after], and [groupCase(currentUnits, newUnits, d)] is [NoChange] exactly
    when [after] has the elements of [currentUnits], [NoCompatibleUnits]
    exactly when [after] is empty and [currentUnits] is not,
    [LostDefaultGraphicUnit] exactly when [after] is not empty and [d] is
    not -99, is in [currentUnits] and no longer in [after], and
    [LostCompatibleUnits] in the remaining case. *)
Theorem groupCase_predicts_extension
    (env : Env) (meters meters' both currentUnits newUnits : list Z) (d : Z) :
  meters ≠ [] → meters' ≠ [] →
  Rev2.unitsCompatibleWithMeters env meters = Return currentUnits →
  Rev2.unitsCompatibleWithMeters env meters' = Return newUnits →
  (∀ m, m ∈ both ↔ m ∈ meters ∨ m ∈ meters') →
  ∃ after,
    Rev2.unitsCompatibleWithMeters env both = Return after
    ∧ same_set after (Rev2.setIntersect currentUnits newUnits)
    ∧ (Rev2.groupCase currentUnits newUnits d = NoChange
       ↔ same_set after currentUnits)
    ∧ (Rev2.groupCase currentUnits newUnits d = NoCompatibleUnits
       ↔ after = [] ∧ currentUnits ≠ [])
    ∧ (Rev2.groupCase currentUnits newUnits d = LostDefaultGraphicUnit
       ↔ after ≠ [] ∧ d ≠ (-99)%Z ∧ d ∈ currentUnits ∧ d ∉ after)
    ∧ (Rev2.groupCase currentUnits newUnits d = LostCompatibleUnits
       ↔ after ≠ [] ∧ ¬ same_set after currentUnits
         ∧ (d = (-99)%Z ∨ d ∉ currentUnits ∨ d ∈ after)).
Proof.
  intros Hne Hne' Hcur Hnew Hboth.
  pose proof (unitsCompatibleWithMeters_NoDup _ _ _ Hcur) as Hnd.
  pose proof (proj1 (unitsCompatibleWithMeters_returns env meters)
                (ex_intro _ _ Hcur)) as Hall.
  pose proof (proj1 (unitsCompatibleWithMeters_returns env meters')
                (ex_intro _ _ Hnew)) as Hall'.
  destruct (proj2 (unitsCompatibleWithMeters_returns env both)) as [after Hafter].
  { intros m [Hm|Hm]%Hboth; auto. }
  assert (both ≠ []) as Hneb.
  { apply not_nil_elem_of. apply not_nil_elem_of in Hne as [m Hm].
    exists m. apply Hboth. by left. }
  assert (∀ x, x ∈ after ↔ x ∈ currentUnits ∧ x ∈ newUnits) as Hin.
  { intros x.
    rewrite (unitsCompatibleWithMeters_elem_of env both after Hneb Hafter).
    rewrite (unitsCompatibleWithMeters_elem_of env meters _ Hne Hcur).
    rewrite (unitsCompatibleWithMeters_elem_of env meters' _ Hne' Hnew).
    split.
    - intros H. split; intros m u Hm; apply H, Hboth; tauto.
    - intros [H1 H2] m u [Hm|Hm]%Hboth; eauto. }
  assert (after ≠ [] ↔ ∃ x, x ∈ currentUnits ∧ x ∈ newUnits) as Hkept.
  { rewrite not_nil_elem_of. by setoid_rewrite Hin. }
  assert (after = [] ↔ ∀ x, x ∈ currentUnits → x ∉ newUnits) as Hnone.
  { split.
    - intros -> x Hx Hx'. by apply (elem_of_nil x), Hin.
    - intros H. apply elem_of_nil_inv. intros x [Hx Hx']%Hin. by apply (H x). }
  assert (same_set after currentUnits ↔ ∀ x, x ∈ currentUnits → x ∈ newUnits)
    as Hsame.
  { unfold same_set. setoid_rewrite Hin. split.
    - intros H x Hx. by apply H.
    - intros H x. split; [tauto|]. auto. }
  exists after. rewrite !groupCase_outcome_iff by done. simpl.
  rewrite Hkept, Hnone, Hsame, not_nil_elem_of. setoid_rewrite Hin.
  split_and!.
  - done.
  - intros x. by rewrite Hin, elem_of_setIntersect.
  - done.
  - tauto.
  - tauto.
  - destruct (lost_or_kept currentUnits newUnits) as [Hk|Hl].
    + split; [|tauto]. intros ((x & Hx & Hn) & _). destruct Hn. by apply Hk.
    + assert (¬ ∀ x, x ∈ currentUnits → x ∈ newUnits) as Hnk.
      { intros H. destruct Hl as (x & Hx & Hn). by apply Hn, H. }
      destruct (decide (d ∈ currentUnits)); tauto.
Qed.

Lemma groupCase_predicts_extension_witness :
  ∃ after,
    Rev2.unitsCompatibleWithMeters site [2%Z; 4%Z; 1%Z] = Return after
    ∧ same_set after (Rev2.setIntersect [5%Z; 7%Z] [6%Z])
    ∧ (Rev2.groupCase [5%Z; 7%Z] [6%Z] 5 = NoChange
       ↔ same_set after [5%Z; 7%Z])
    ∧ (Rev2.groupCase [5%Z; 7%Z] [6%Z] 5 = NoCompatibleUnits
       ↔ after = [] ∧ [5%Z; 7%Z] ≠ [])
    ∧ (Rev2.groupCase [5%Z; 7%Z] [6%Z] 5 = LostDefaultGraphicUnit
       ↔ after ≠ [] ∧ 5%Z ≠ (-99)%Z ∧ 5%Z ∈ [5%Z; 7%Z] ∧ 5%Z ∉ after)
    ∧ (Rev2.groupCase [5%Z; 7%Z] [6%Z] 5 = LostCompatibleUnits
       ↔ after ≠ [] ∧ ¬ same_set after [5%Z; 7%Z]
         ∧ (5%Z = (-99)%Z ∨ 5%Z ∉ [5%Z; 7%Z] ∨ 5%Z ∈ after)).
Proof.
  apply (groupCase_predicts_extension site [1%Z; 4%Z] [2%Z] [2%Z; 4%Z; 1%Z]
           [5%Z; 7%Z] [6%Z] 5).
  - discriminate.
  - discriminate.
  - reflexivity.
  - reflexivity.
  - intros m. rewrite !list_elem_of_In. simpl. tauto.
Defined.

(** ** Missing ids *)

Lemma metersInGroup_missing env gid :
  Object_get (groups_byGroupID (getState env)) gid = None →
  Rev2.metersInGroup env gid = Throw TypeError.
Proof. intros H. unfold Rev2.metersInGroup. by rewrite H. Qed.

(** X14: A group id that is no key of [byGroupID] makes every entry point that
    takes a group throw: [metersInGroup], the resolution and classification
    of the id as a group candidate, the four menu builders and
    [getGroupPostUpdateDiagnostics]. *)
Theorem missing_group_throws (env : Env) (gid : Z) :
  Object_get (groups_byGroupID (getState env)) gid = None →
  Rev1.metersInGroup env gid = Throw TypeError
  ∧ Rev2.metersInGroup env gid = Throw TypeError
  ∧ Rev2.getCompatibleUnits env gid Group = Throw TypeError
  ∧ (∀ cur d, Rev2.getCompatibilityChangeCase env cur gid Group d
              = Throw TypeError)
  ∧ Rev1.getMeterMenuOptionsForGroup env gid = Throw TypeError
  ∧ Rev1.getGroupMenuOptionsForGroup env gid = Throw TypeError
  ∧ Rev2.getMeterMenuOptionsForGroup env gid = Throw TypeError
  ∧ Rev2.getGroupMenuOptionsForGroup env gid = Throw TypeError
  ∧ Rev2.getGroupPostUpdateDiagnostics env gid = Throw TypeError.
Proof.
  intros H. pose proof (metersInGroup_missing env gid H) as Hm.
  split_and!; try exact Hm.
  - unfold Rev2.getCompatibleUnits. simpl. by rewrite Hm.
  - intros cur d.
    unfold Rev2.getCompatibilityChangeCase, Rev2.getCompatibleUnits. simpl.
    by rewrite Hm.
  - unfold Rev1.getMeterMenuOptionsForGroup. cbv zeta.
    by rewrite (rev_metersInGroup env gid), Hm.
  - unfold Rev1.getGroupMenuOptionsForGroup. cbv zeta.
    by rewrite (rev_metersInGroup env gid), Hm.
  - unfold Rev2.getMeterMenuOptionsForGroup. cbv zeta. by rewrite Hm.
  - unfold Rev2.getGroupMenuOptionsForGroup. cbv zeta. by rewrite Hm.
  - unfold Rev2.getGroupPostUpdateDiagnostics. by rewrite Hm.
Qed.

Lemma missing_group_throws_witness :
  Rev2.getGroupMenuOptionsForGroup site 9 = Throw TypeError.
Proof.
  assert (Object_get (groups_byGroupID (getState site)) 9 = None) as H
    by reflexivity.
  pose proof (missing_group_throws site 9 H) as (_ & _ & _ & _ & _ & _ & _ & Hg & _).
  exact Hg.
Defined.

(** X15: A meter id that is no key of [byMeterID] makes
    [unitsCompatibleWithMeters] throw on every set that holds it, and makes
    its resolution and classification as a meter candidate throw; so do the
    menus and the diagnostics of a group that has it among its deep meters. *)
Theorem missing_meter_throws (env : Env) (m : Z) :
  Object_get (meters_byMeterID (getState env)) m = None →
  (∀ meters, m ∈ meters →
     Rev1.unitsCompatibleWithMeters env meters = Throw TypeError
     ∧ Rev2.unitsCompatibleWithMeters env meters = Throw TypeError)
  ∧ Rev2.getCompatibleUnits env m Meter = Throw TypeError
  ∧ (∀ cur d, Rev2.getCompatibilityChangeCase env cur m Meter d
              = Throw TypeError)
  ∧ (∀ gid group,
       Object_get (groups_byGroupID (getState env)) gid = Some group →
       m ∈ group_deepMeters group →
       Rev2.getMeterMenuOptionsForGroup env gid = Throw TypeError
       ∧ Rev2.getGroupMenuOptionsForGroup env gid = Throw TypeError
       ∧ Rev2.getGroupPostUpdateDiagnostics env gid = Throw TypeError).
Proof.
  intros H.
  assert (meterUnits env m = Throw TypeError) as Hmu.
  { unfold meterUnits. by rewrite H. }
  split_and!.
  - intros meters Hm. rewrite rev_unitsCompatibleWithMeters.
    split; by apply (unitsCompatibleWithMeters_Throw _ _ m).
  - unfold Rev2.getCompatibleUnits. simpl. by rewrite H.
  - intros cur d.
    unfold Rev2.getCompatibilityChangeCase, Rev2.getCompatibleUnits. simpl.
    by rewrite H.
  - intros gid group Hg Hm.
    assert (Rev2.unitsCompatibleWithMeters env
              (JSSet.of_array (group_deepMeters group)) = Throw TypeError) as Ht.
    { apply (unitsCompatibleWithMeters_Throw _ _ m); [|done].
      by apply of_array_elem_of. }
    split_and!.
    + unfold Rev2.getMeterMenuOptionsForGroup, Rev2.metersInGroup. cbv zeta.
      rewrite Hg. simpl. by rewrite Ht.
    + unfold Rev2.getGroupMenuOptionsForGroup, Rev2.metersInGroup. cbv zeta.
      rewrite Hg. simpl. by rewrite Ht.
    + unfold Rev2.getGroupPostUpdateDiagnostics, Rev2.metersInGroup.
      rewrite Hg. simpl. by rewrite Ht.
Qed.

Lemma missing_meter_throws_witness :
  Rev2.unitsCompatibleWithMeters site [1%Z; 8%Z] = Throw TypeError.
Proof.
  assert (Object_get (meters_byMeterID (getState site)) 8 = None) as H
    by reflexivity.
  pose proof (missing_meter_throws site 8 H) as (Hm & _).
  apply (Hm [1%Z; 8%Z]). apply list_elem_of_In. simpl. tauto.
Defined.

(** X16: For a group of [byGroupID], [metersInGroup] returns a set without
    repetitions holding exactly the ids of [deepMeters]; a [deepMeters]
    without repetitions is returned as it is. Both revisions. *)
Theorem metersInGroup_deepMeters (env : Env) (gid : Z) (group : GroupDefinition) :
  Object_get (groups_byGroupID (getState env)) gid = Some group →
  ∃ meters,
    Rev1.metersInGroup env gid = Return meters
    ∧ Rev2.metersInGroup env gid = Return meters
    ∧ NoDup meters
    ∧ (∀ m, m ∈ meters ↔ m ∈ group_deepMeters group)
    ∧ (NoDup (group_deepMeters group) → meters = group_deepMeters group).
Proof.
  intros H. exists (JSSet.of_array (group_deepMeters group)).
  rewrite rev_metersInGroup. unfold Rev2.metersInGroup. rewrite H. simpl.
  split_and!; try done.
  - apply of_array_NoDup.
  - intros m. apply of_array_elem_of.
  - apply of_array_id.
Qed.

Lemma metersInGroup_deepMeters_witness :
  ∃ meters,
    Rev1.metersInGroup site 3 = Return meters
    ∧ Rev2.metersInGroup site 3 = Return meters
    ∧ NoDup meters
    ∧ (∀ m, m ∈ meters ↔ m ∈ [1%Z; 2%Z])
    ∧ (NoDup [1%Z; 2%Z] → meters = [1%Z; 2%Z]).
Proof.
  apply (metersInGroup_deepMeters site 3 (mkGroupDefinition 3 "g3" [1%Z; 2%Z] (-99))).
  reflexivity.
Defined.

(** ** Menus, option by option *)

Lemma menu_exact {A : Type} env gid (candidates : list A)
    classify (h : A → GroupCase → SelectOption) menu options :
  menu = (meters ← Rev2.metersInGroup env gid;
          currentUnits ← Rev2.unitsCompatibleWithMeters env meters;
          group ← deref (Object_get (groups_byGroupID (getState env)) gid);
          forEach (λ options a,
              c ← classify currentUnits (group_defaultGraphicUnit group) a;
              mret (options ++ [h a c]))
            candidates []) →
  menu = Return options
  ↔ ∃ currentUnits d,
      group_baseline env gid currentUnits d
      ∧ Forall2 (λ a o, ∃ c, classify currentUnits d a = Return c ∧ o = h a c)
          candidates options.
Proof.
  intros ->. split.
  - intros (ms & Hms & (cur & Hcur & (g & Hg%deref_Return_inv & Hloop)%bind_Return_inv
      )%bind_Return_inv)%bind_Return_inv.
    exists cur, (group_defaultGraphicUnit g). split; [by exists ms, g|].
    by apply menu_loop_Return in Hloop as (new & -> & Hall).
  - intros (cur & d & (ms & g & Hms & Hcur & Hg & ->) & Hall).
    rewrite Hms. simpl. rewrite Hcur. simpl. rewrite Hg. simpl.
    apply menu_loop_Return. by exists options.
Qed.

Lemma menuOption_shows lbl id c :
  label (menuOption lbl id c) = lbl ∧ value (menuOption lbl id c) = id
  ∧ option_shows c (menuOption lbl id c).
Proof. by destruct c. Qed.

Lemma option_shows_inj c c' o : option_shows c o → option_shows c' o → c = c'.
Proof. destruct c, c'; simpl; intros [? ?] [? ?]; congruence. Qed.

(** X17: The second revision's menus show each candidate's case: when a menu is
    returned, the option of a candidate carries its label and id, is enabled
    and black for [NoChange], enabled and yellow for [LostCompatibleUnits],
    enabled and red for [LostDefaultGraphicUnit], and disabled with the empty
    style for [NoCompatibleUnits]; the empty style that [getMenuOptionFont]
    keeps for its default branch is never the style of an enabled option. *)
Theorem Rev2_menus_show_cases (env : Env) (gid : Z) (options : list SelectOption) :
  (Rev2.getMeterMenuOptionsForGroup env gid = Return options →
   ∃ currentUnits d,
     group_baseline env gid currentUnits d
     ∧ Forall2 (λ meter o,
         label o = meter_identifier meter ∧ value o = meter_id meter
         ∧ ∃ c, Rev2.getCompatibilityChangeCase env currentUnits
                  (meter_id meter) Meter d = Return c
                ∧ option_shows c o)
         (Object_values (meters_byMeterID (getState env))) options)
  ∧ (Rev2.getGroupMenuOptionsForGroup env gid = Return options →
     ∃ currentUnits d,
       group_baseline env gid currentUnits d
       ∧ Forall2 (λ group o,
           label o = group_name group ∧ value o = group_id group
           ∧ ∃ c, Rev2.getCompatibilityChangeCase env currentUnits
                    (group_id group) Group d = Return c
                  ∧ option_shows c o)
           (Object_values (groups_byGroupID (getState env))) options)
  ∧ (Rev2.getMeterMenuOptionsForGroup env gid = Return options
     ∨ Rev2.getGroupMenuOptionsForGroup env gid = Return options →
     Forall (λ o, isDisabled o = false → style o ≠ Some []) options).
Proof.
  assert (Rev2.getMeterMenuOptionsForGroup env gid = Return options →
   ∃ currentUnits d,
     group_baseline env gid currentUnits d
     ∧ Forall2 (λ meter o,
         label o = meter_identifier meter ∧ value o = meter_id meter
         ∧ ∃ c, Rev2.getCompatibilityChangeCase env currentUnits
                  (meter_id meter) Meter d = Return c
                ∧ option_shows c o)
         (Object_values (meters_byMeterID (getState env))) options) as Hmeter.
  { intros H.
    apply (menu_exact env gid
             (Object_values (meters_byMeterID (getState env))) (λ cur d meter,
             Rev2.getCompatibilityChangeCase env cur (meter_id meter) Meter d)
           (λ meter c, menuOption (meter_identifier meter) (meter_id meter) c))
      in H as (cur & d & Hbase & Hall); [|reflexivity].
    exists cur, d. split; [done|]. eapply Forall2_impl; [exact Hall|]. simpl.
    intros meter o (c & Hc & ->).
    destruct (menuOption_shows (meter_identifier meter) (meter_id meter) c)
      as (? & ? & ?). eauto. }
  assert (Rev2.getGroupMenuOptionsForGroup env gid = Return options →
     ∃ currentUnits d,
       group_baseline env gid currentUnits d
       ∧ Forall2 (λ group o,
           label o = group_name group ∧ value o = group_id group
           ∧ ∃ c, Rev2.getCompatibilityChangeCase env currentUnits
                    (group_id group) Group d = Return c
                  ∧ option_shows c o)
           (Object_values (groups_byGroupID (getState env))) options) as Hgroup.
  { intros H.
    apply (menu_exact env gid
             (Object_values (groups_byGroupID (getState env))) (λ cur d group,
             Rev2.getCompatibilityChangeCase env cur (group_id group) Group d)
           (λ group c, menuOption (group_name group) (group_id group) c))
      in H as (cur & d & Hbase & Hall); [|reflexivity].
    exists cur, d. split; [done|]. eapply Forall2_impl; [exact Hall|]. simpl.
    intros group o (c & Hc & ->).
    destruct (menuOption_shows (group_name group) (group_id group) c)
      as (? & ? & ?). eauto. }
  split_and!; [done..|].
  intros [H|H].
  - destruct (Hmeter H) as (cur & d & _ & Hall). clear -Hall.
    induction Hall as [|meter o ms os (_ & _ & c & _ & Hshow) _ IH];
      constructor; [|done].
    destruct c; simpl in Hshow; destruct Hshow as [Hd Hs]; rewrite Hs, Hd; done.
  - destruct (Hgroup H) as (cur & d & _ & Hall). clear -Hall.
    induction Hall as [|group o gs os (_ & _ & c & _ & Hshow) _ IH];
      constructor; [|done].
    destruct c; simpl in Hshow; destruct Hshow as [Hd Hs]; rewrite Hs, Hd; done.
Qed.

Lemma Rev2_menus_show_cases_witness :
  ∃ currentUnits d,
    group_baseline site 1 currentUnits d
    ∧ Forall2 (λ meter o,
        label o = meter_identifier meter ∧ value o = meter_id meter
        ∧ ∃ c, Rev2.getCompatibilityChangeCase site currentUnits
                 (meter_id meter) Meter d = Return c
               ∧ option_shows c o)
        (Object_values (meters_byMeterID (getState site)))
        [ mkSelectOption "m1" 1 false (Some [("color", "black")]);
          mkSelectOption "m2" 2 true (Some []);
          mkSelectOption "m3" 3 true (Some []);
          mkSelectOption "m4" 4 false (Some [("color", "black")]) ].
Proof.
  pose proof (Rev2_menus_show_cases site 1
    [ mkSelectOption "m1" 1 false (Some [("color", "black")]);
      mkSelectOption "m2" 2 true (Some []);
      mkSelectOption "m3" 3 true (Some []);
      mkSelectOption "m4" 4 false (Some [("color", "black")]) ]) as (H & _).
  apply H. reflexivity.
Defined.

Lemma meter_menu_loops_agree {A : Type} (g : A → Completion GroupCase)
    (h1 h2 : A → GroupCase → SelectOption) (l : list A)
    (acc : list SelectOption) :
  (∀ a c, h1 a c = without_style (h2 a c)) →
  forEach (λ (options : list SelectOption) x,
      mbind (M:=Completion) (λ c, Return (options ++ [h1 x c])) (g x))
    l (fmap (M:=list) without_style acc)
  = mbind (M:=Completion) (λ r, Return (fmap (M:=list) without_style r))
      (forEach (λ (options : list SelectOption) x,
           mbind (M:=Completion) (λ c, Return (options ++ [h2 x c])) (g x))
         l acc).
Proof.
  intros Hh. revert acc. induction l as [|x l IH]; intros acc; simpl; [done|].
  destruct (g x) as [c|e]; simpl; [|done].
  rewrite Hh. rewrite <- (IH (acc ++ [h2 x c])). by rewrite fmap_app.
Qed.

(** X18: The two revisions build the same meter menu up to the [style] property
    the second one adds: the first revision's [getMeterMenuOptionsForGroup]
    throws when the second one does, and otherwise returns the second one's
    options without their style. *)
Theorem meter_menus_agree_up_to_style (env : Env) (gid : Z) :
  Rev1.getMeterMenuOptionsForGroup env gid
  = (options ← Rev2.getMeterMenuOptionsForGroup env gid;
     mret (fmap (M:=list) without_style options)).
Proof.
  unfold Rev1.getMeterMenuOptionsForGroup, Rev2.getMeterMenuOptionsForGroup.
  cbv zeta. rewrite rev_metersInGroup.
  destruct (Rev2.metersInGroup env gid) as [ms|e]; simpl; [|done].
  rewrite rev_unitsCompatibleWithMeters.
  destruct (Rev2.unitsCompatibleWithMeters env ms) as [cur|e]; simpl; [|done].
  destruct (Object_get _ gid) as [g|]; simpl; [|done].
  apply (meter_menu_loops_agree
    (λ meter, Rev2.getCompatibilityChangeCase env cur (meter_id meter) Meter
                (group_defaultGraphicUnit g))
    (λ meter c,
       if bool_decide (c = NoCompatibleUnits)
       then set_isDisabled true
              (mkSelectOption (meter_identifier meter) (meter_id meter) false None)
       else mkSelectOption (meter_identifier meter) (meter_id meter) false None)
    (λ meter c, menuOption (meter_identifier meter) (meter_id meter) c)
    _ []).
  intros meter c. by destruct c.
Qed.

(** ** Candidates *)

Lemma group_baseline_unique env gid cur d cur' d' :
  group_baseline env gid cur d → group_baseline env gid cur' d' →
  cur = cur' ∧ d = d'.
Proof.
  intros (ms & g & Hms & Hcur & Hg & ->) (ms' & g' & Hms' & Hcur' & Hg' & ->).
  assert (ms' = ms) as -> by congruence.
  assert (g' = g) as -> by congruence.
  split; congruence.
Qed.

Lemma group_baseline_NoDup env gid cur d : group_baseline env gid cur d → NoDup cur.
Proof.
  intros (ms & g & _ & Hcur & _). by apply unitsCompatibleWithMeters_NoDup in Hcur.
Qed.

Lemma getCompatibilityChangeCase_Return env cur id t d c :
  Rev2.getCompatibilityChangeCase env cur id t d = Return c
  ↔ ∃ new, Rev2.getCompatibleUnits env id t = Return new
           ∧ c = Rev2.groupCase cur new d.
Proof.
  unfold Rev2.getCompatibilityChangeCase. rewrite bind_Return_inv.
  split.
  - intros (new & Hnew & [= <-]). by exists new.
  - intros (new & Hnew & ->). by exists new.
Qed.

Lemma menu_all_enabled {A : Type} env gid (candidates : list A) idOf
    classify menu options :
  menu_follows_classifier env gid candidates idOf classify menu →
  (∀ cur d a c, group_baseline env gid cur d →
     classify cur d a = Return c → c ≠ NoCompatibleUnits) →
  menu = Return options → Forall (λ o, isDisabled o = false) options.
Proof.
  intros [Hmenu _] Hnever Hret.
  destruct (Hmenu options Hret) as (cur & d & Hbase & Hall).
  clear Hmenu Hret.
  induction Hall as [|a o l os (_ & c & Hc & Hdis) _ IH]; constructor; [|done].
  destruct (isDisabled o); [|done].
  destruct (Hnever cur d a c Hbase Hc). by apply Hdis.
Qed.

Lemma getCompatibilityChangeCase_nil env id t d c :
  Rev2.getCompatibilityChangeCase env [] id t d = Return c → c = NoChange.
Proof. by intros (new & _ & ->)%getCompatibilityChangeCase_Return. Qed.

(** X19: With no current unit every candidate is classified [NoChange]: a group
    whose compatible units are empty (a group without meters, for one) gets
    menus in which no option is disabled, in both revisions. *)
Theorem empty_currentUnits_never_disables
    (env : Env) (gid d : Z) (options : list SelectOption) :
  group_baseline env gid [] d →
  (∀ newUnits, Rev1.groupCase [] newUnits d = NoChange
               ∧ Rev2.groupCase [] newUnits d = NoChange)
  ∧ (Rev1.getMeterMenuOptionsForGroup env gid = Return options
     ∨ Rev1.getGroupMenuOptionsForGroup env gid = Return options
     ∨ Rev2.getMeterMenuOptionsForGroup env gid = Return options
     ∨ Rev2.getGroupMenuOptionsForGroup env gid = Return options →
     Forall (λ o, isDisabled o = false) options).
Proof.
  intros Hbase. split; [done|].
  assert (∀ cur d' id t c, group_baseline env gid cur d' →
            Rev2.getCompatibilityChangeCase env cur id t d' = Return c →
            c ≠ NoCompatibleUnits) as Hnever.
  { intros cur d' id t c Hbase' Hc.
    destruct (group_baseline_unique _ _ _ _ _ _ Hbase Hbase') as [<- <-].
    by apply getCompatibilityChangeCase_nil in Hc as ->. }
  intros [H|[H|[H|H]]].
  - eapply menu_all_enabled; [apply Rev1_meter_menu| |exact H].
    intros cur d' a c. apply Hnever.
  - eapply menu_all_enabled; [apply Rev1_group_menu| |exact H].
    intros cur d' a c. apply Hnever.
  - eapply menu_all_enabled; [apply Rev2_meter_menu| |exact H].
    intros cur d' a c. apply Hnever.
  - eapply menu_all_enabled; [apply Rev2_group_menu| |exact H].
    intros cur d' a c. apply Hnever.
Qed.

Lemma empty_currentUnits_never_disables_witness :
  Forall (λ o, isDisabled o = false)
    [ mkSelectOption "m1" 1 false (Some [("color", "black")]);
      mkSelectOption "m2" 2 false (Some [("color", "black")]);
      mkSelectOption "m3" 3 false (Some [("color", "black")]);
      mkSelectOption "m4" 4 false (Some [("color", "black")]) ].
Proof.
  assert (group_baseline site 3 [] (-99)) as Hbase.
  { exists [1%Z; 2%Z], (mkGroupDefinition 3 "g3" [1%Z; 2%Z] (-99)).
    split_and!; reflexivity. }
  pose proof (empty_currentUnits_never_disables site 3 (-99)
    [ mkSelectOption "m1" 1 false (Some [("color", "black")]);
      mkSelectOption "m2" 2 false (Some [("color", "black")]);
      mkSelectOption "m3" 3 false (Some [("color", "black")]);
      mkSelectOption "m4" 4 false (Some [("color", "black")]) ] Hbase) as (_ & H).
  apply H. right. right. left. reflexivity.
Defined.

Lemma meterUnits_not_ready env m u :
  pikAvailable (conversionArray env) = false →
  meterUnits env m = Return u → u = [].
Proof.
  intros Hready. unfold meterUnits.
  destruct (Object_get _ m) as [meter|]; simpl; [|done].
  destruct (bool_decide _); [|by intros [= <-]].
  rewrite unitsCompatibleWithUnit_not_ready by done. by intros [= <-].
Qed.

Lemma unitsCompatibleWithMeters_not_ready env ms s :
  pikAvailable (conversionArray env) = false →
  Rev2.unitsCompatibleWithMeters env ms = Return s → s = [].
Proof.
  intros Hready. destruct ms as [|m ms]; [by intros [= <-]|].
  rewrite unitsCompatibleWithMeters_cons.
  intros (u & Hu & Hrest)%bind_Return_inv.
  apply (meterUnits_not_ready _ _ _ Hready) in Hu as ->.
  apply intersectMeters_Return in Hrest as [_ Hmem].
  apply elem_of_nil_inv. intros x [Hx _]%Hmem. by apply elem_of_nil in Hx.
Qed.

(** X20: Before the relation is available every set of compatible units is
    empty, so every candidate is classified [NoChange] and no menu, of either
    revision, disables an option. *)
Theorem not_ready_never_disables (env : Env) (gid : Z) (options : list SelectOption) :
  pikAvailable (conversionArray env) = false →
  (∀ meters s, Rev2.unitsCompatibleWithMeters env meters = Return s → s = [])
  ∧ (∀ cur d id t c,
       group_baseline env gid cur d →
       Rev2.getCompatibilityChangeCase env cur id t d = Return c → c = NoChange)
  ∧ (Rev1.getMeterMenuOptionsForGroup env gid = Return options
     ∨ Rev1.getGroupMenuOptionsForGroup env gid = Return options
     ∨ Rev2.getMeterMenuOptionsForGroup env gid = Return options
     ∨ Rev2.getGroupMenuOptionsForGroup env gid = Return options →
     Forall (λ o, isDisabled o = false) options).
Proof.
  intros Hready.
  assert (∀ cur d id t c,
       group_baseline env gid cur d →
       Rev2.getCompatibilityChangeCase env cur id t d = Return c → c = NoChange)
    as Hcase.
  { intros cur d id t c (ms & g & _ & Hcur & _) Hc.
    apply (unitsCompatibleWithMeters_not_ready _ _ _ Hready) in Hcur as ->.
    by apply getCompatibilityChangeCase_nil in Hc. }
  assert (∀ cur d id t c, group_baseline env gid cur d →
            Rev2.getCompatibilityChangeCase env cur id t d = Return c →
            c ≠ NoCompatibleUnits) as Hnever.
  { intros cur d id t c Hbase Hc. by rewrite (Hcase _ _ _ _ _ Hbase Hc). }
  split_and!.
  - intros meters s. by apply unitsCompatibleWithMeters_not_ready.
  - exact Hcase.
  - intros [H|[H|[H|H]]].
    + eapply menu_all_enabled; [apply Rev1_meter_menu| |exact H].
      intros cur d' a c. apply Hnever.
    + eapply menu_all_enabled; [apply Rev1_group_menu| |exact H].
      intros cur d' a c. apply Hnever.
    + eapply menu_all_enabled; [apply Rev2_meter_menu| |exact H].
      intros cur d' a c. apply Hnever.
    + eapply menu_all_enabled; [apply Rev2_group_menu| |exact H].
      intros cur d' a c. apply Hnever.
Qed.

Lemma not_ready_never_disables_witness :
  Forall (λ o, isDisabled o = false)
    [ mkSelectOption "g1" 1 false (Some [("color", "black")]);
      mkSelectOption "g2" 2 false (Some [("color", "black")]);
      mkSelectOption "g3" 3 false (Some [("color", "black")]) ].
Proof.
  assert (pikAvailable (conversionArray site_loading) = false) as Hready
    by reflexivity.
  pose proof (not_ready_never_disables site_loading 1
    [ mkSelectOption "g1" 1 false (Some [("color", "black")]);
      mkSelectOption "g2" 2 false (Some [("color", "black")]);
      mkSelectOption "g3" 3 false (Some [("color", "black")]) ] Hready)
    as (_ & _ & H).
  apply H. right. right. right. reflexivity.
Defined.

Lemma groupCase_subset_NoChange cur new d :
  NoDup cur → (∀ x, x ∈ cur → x ∈ new) → Rev2.groupCase cur new d = NoChange.
Proof. intros Hnd Hsub. by apply groupCase_NoChange_iff. Qed.

Lemma Rev2_group_menu_exact env gid options :
  Rev2.getGroupMenuOptionsForGroup env gid = Return options
  ↔ ∃ cur d,
      group_baseline env gid cur d
      ∧ Forall2 (λ group o,
          ∃ c, Rev2.getCompatibilityChangeCase env cur (group_id group) Group d
               = Return c
               ∧ o = menuOption (group_name group) (group_id group) c)
          (Object_values (groups_byGroupID (getState env))) options.
Proof.
  apply (menu_exact env gid
           (Object_values (groups_byGroupID (getState env))) (λ cur d group,
             Rev2.getCompatibilityChangeCase env cur (group_id group) Group d)
           (λ group c, menuOption (group_name group) (group_id group) c)).
  reflexivity.
Qed.

(** X21: A group offered to itself changes nothing: the classification of a
    group's own id as a group candidate is [NoChange], whatever the default
    unit, and in the second revision's group menu every option whose id is
    the group's own is enabled and black. *)
Theorem own_group_is_NoChange (env : Env) (gid : Z) (currentUnits : list Z) (d : Z) :
  group_baseline env gid currentUnits d →
  (∀ d', Rev2.getCompatibilityChangeCase env currentUnits gid Group d'
         = Return NoChange)
  ∧ (∀ options,
       Rev2.getGroupMenuOptionsForGroup env gid = Return options →
       Forall2 (λ group o,
           group_id group = gid →
           isDisabled o = false ∧ style o = Some [("color", "black")])
         (Object_values (groups_byGroupID (getState env))) options).
Proof.
  intros Hbase.
  assert (∀ d', Rev2.getCompatibilityChangeCase env currentUnits gid Group d'
                = Return NoChange) as Hown.
  { intros d'. apply getCompatibilityChangeCase_Return. exists currentUnits.
    destruct Hbase as (ms & g & Hms & Hcur & _). split.
    - unfold Rev2.getCompatibleUnits. simpl. by rewrite Hms.
    - symmetry. apply groupCase_subset_NoChange; [|done].
      by apply unitsCompatibleWithMeters_NoDup in Hcur. }
  split; [exact Hown|].
  intros options (cur & d0 & Hbase' & Hall)%Rev2_group_menu_exact.
  destruct (group_baseline_unique _ _ _ _ _ _ Hbase Hbase') as [<- <-].
  eapply Forall2_impl; [exact Hall|]. simpl.
  intros group o (c & Hc & ->) Hid. rewrite Hid, Hown in Hc.
  by injection Hc as <-.
Qed.

Lemma own_group_is_NoChange_witness :
  Rev2.getCompatibilityChangeCase site [5%Z; 7%Z] 1 Group 7 = Return NoChange.
Proof.
  assert (group_baseline site 1 [5%Z; 7%Z] 5) as Hbase.
  { exists [1%Z], (mkGroupDefinition 1 "g1" [1%Z] 5). split_and!; reflexivity. }
  exact (proj1 (own_group_is_NoChange site 1 [5%Z; 7%Z] 5 Hbase) 7%Z).
Defined.

Lemma meterUnits_Return_lookup env m u :
  meterUnits env m = Return u →
  ∃ meter, Object_get (meters_byMeterID (getState env)) m = Some meter.
Proof.
  unfold meterUnits. destruct (Object_get _ m) as [meter|]; [|done].
  intros _. by exists meter.
Qed.

(** X22: Candidates already inside the group change nothing: for a group whose
    deep meters resolve to [currentUnits], a meter among its deep meters is
    classified [NoChange], and so is a group whose deep meters are a
    non-empty part of them. *)
Theorem member_candidates_are_NoChange
    (env : Env) (gid : Z) (meters currentUnits : list Z) (d : Z) :
  Rev2.metersInGroup env gid = Return meters →
  Rev2.unitsCompatibleWithMeters env meters = Return currentUnits →
  (∀ m, m ∈ meters →
     Rev2.getCompatibilityChangeCase env currentUnits m Meter d = Return NoChange)
  ∧ (∀ gid' meters',
       Rev2.metersInGroup env gid' = Return meters' →
       meters' ≠ [] → meters' ⊆ meters →
       Rev2.getCompatibilityChangeCase env currentUnits gid' Group d
       = Return NoChange).
Proof.
  intros Hms Hcur.
  pose proof (unitsCompatibleWithMeters_NoDup _ _ _ Hcur) as Hnd.
  pose proof (proj1 (unitsCompatibleWithMeters_returns env meters)
                (ex_intro _ _ Hcur)) as Hall.
  split.
  - intros m Hm. destruct (Hall m Hm) as [u Hu].
    destruct (meterUnits_Return_lookup _ _ _ Hu) as [meter Hget].
    apply getCompatibilityChangeCase_Return. exists u. split.
    + unfold Rev2.getCompatibleUnits. simpl. rewrite Hget. simpl.
      by rewrite <- (meterUnits_lookup _ _ _ Hget).
    + symmetry. apply groupCase_subset_NoChange; [done|]. intros x Hx.
      assert (meters ≠ []) as Hne by (intros ->; by apply elem_of_nil in Hm).
      rewrite (unitsCompatibleWithMeters_elem_of env meters _ Hne Hcur) in Hx.
      by apply (Hx m).
  - intros gid' meters' Hms' Hne' Hsub.
    destruct (proj2 (unitsCompatibleWithMeters_returns env meters')) as [new Hnew].
    { intros m Hm. apply Hall, Hsub, Hm. }
    apply getCompatibilityChangeCase_Return. exists new. split.
    + unfold Rev2.getCompatibleUnits. simpl. by rewrite Hms'.
    + symmetry. apply groupCase_subset_NoChange; [done|]. intros x Hx.
      assert (meters ≠ []) as Hne.
      { apply not_nil_elem_of. apply not_nil_elem_of in Hne' as [m Hm].
        exists m. by apply Hsub. }
      rewrite (unitsCompatibleWithMeters_elem_of env meters _ Hne Hcur) in Hx.
      rewrite (unitsCompatibleWithMeters_elem_of env meters' _ Hne' Hnew).
      intros m u Hm. apply Hx, Hsub, Hm.
Qed.

Lemma member_candidates_are_NoChange_witness :
  Rev2.getCompatibilityChangeCase site [5%Z; 7%Z] 1 Meter 5 = Return NoChange.
Proof.
  assert (Rev2.metersInGroup site 1 = Return [1%Z]) as Hms by reflexivity.
  assert (Rev2.unitsCompatibleWithMeters site [1%Z] = Return [5%Z; 7%Z]) as Hcur
    by reflexivity.
  apply (proj1 (member_candidates_are_NoChange site 1 [1%Z] [5%Z; 7%Z] 5
                  Hms Hcur) 1%Z).
  apply list_elem_of_In. simpl. tauto.
Defined.

(** X23: Candidates without units lose everything: against a non-empty
    [currentUnits] resolved from meters, a meter whose unit is -99 and a group
    without deep meters are classified [NoCompatibleUnits], whatever the
    default unit. *)
Theorem unitless_candidates_are_NoCompatibleUnits
    (env : Env) (meters currentUnits : list Z) (d : Z) :
  Rev2.unitsCompatibleWithMeters env meters = Return currentUnits →
  currentUnits ≠ [] →
  (∀ m meter,
     Object_get (meters_byMeterID (getState env)) m = Some meter →
     meter_unitId meter = (-99)%Z →
     Rev2.getCompatibilityChangeCase env currentUnits m Meter d
     = Return NoCompatibleUnits)
  ∧ (∀ g group,
       Object_get (groups_byGroupID (getState env)) g = Some group →
       group_deepMeters group = [] →
       Rev2.getCompatibilityChangeCase env currentUnits g Group d
       = Return NoCompatibleUnits).
Proof.
  intros Hcur Hne.
  pose proof (unitsCompatibleWithMeters_NoDup _ _ _ Hcur) as Hnd.
  assert (Rev2.groupCase currentUnits [] d = NoCompatibleUnits) as Hcase.
  { apply groupCase_NoCompatibleUnits_iff; [done|]. split; [|done].
    apply list_intersection_nil_iff. intros x _. apply not_elem_of_nil. }
  split.
  - intros m meter Hget Hsent.
    apply getCompatibilityChangeCase_Return. exists []. split; [|done].
    unfold Rev2.getCompatibleUnits. simpl. rewrite Hget. simpl.
    rewrite Hsent. apply unitsCompatibleWithUnit_sentinel.
  - intros g group Hget Hdeep.
    apply getCompatibilityChangeCase_Return. exists []. split; [|done].
    unfold Rev2.getCompatibleUnits, Rev2.metersInGroup. simpl.
    rewrite Hget. simpl. by rewrite Hdeep.
Qed.

Lemma unitless_candidates_are_NoCompatibleUnits_witness :
  Rev2.getCompatibilityChangeCase site [5%Z; 7%Z] 3 Meter 5
  = Return NoCompatibleUnits.
Proof.
  assert (Rev2.unitsCompatibleWithMeters site [1%Z] = Return [5%Z; 7%Z]) as Hcur
    by reflexivity.
  assert ([5%Z; 7%Z] ≠ ([] : list Z)) as Hne by discriminate.
  apply (proj1 (unitless_candidates_are_NoCompatibleUnits site [1%Z] [5%Z; 7%Z] 5
                  Hcur Hne) 3%Z (mkMeterData 3 "m3" (-99))); reflexivity.
Defined.

(** ** Diagnostics *)

(** X24: [getGroupPostUpdateDiagnostics] never has anything to say: it returns
    the empty message exactly when the group and all its deep meters resolve,
    and throws otherwise. *)
Theorem getGroupPostUpdateDiagnostics_message (env : Env) (gid : Z) :
  (∀ msg, Rev2.getGroupPostUpdateDiagnostics env gid = Return msg → msg = "")
  ∧ (Rev2.getGroupPostUpdateDiagnostics env gid = Return ""
     ↔ ∃ currentUnits d, group_baseline env gid currentUnits d)
  ∧ (Rev2.getGroupPostUpdateDiagnostics env gid = Throw TypeError
     ↔ ¬ ∃ currentUnits d, group_baseline env gid currentUnits d).
Proof.
  assert (Rev2.getGroupPostUpdateDiagnostics env gid = Return ""
          ↔ ∃ currentUnits d, group_baseline env gid currentUnits d) as Hiff.
  { unfold Rev2.getGroupPostUpdateDiagnostics. split.
    - intros (ms & Hms & (cur & Hcur & _)%bind_Return_inv)%bind_Return_inv.
      pose proof Hms as Hms'. unfold Rev2.metersInGroup in Hms'.
      destruct (Object_get _ gid) as [g|] eqn:Hg; [|done].
      exists cur, (group_defaultGraphicUnit g). by exists ms, g.
    - intros (cur & d & ms & g & Hms & Hcur & _). rewrite Hms. simpl.
      by rewrite Hcur. }
  assert (∀ msg, Rev2.getGroupPostUpdateDiagnostics env gid = Return msg →
                 msg = "") as Hmsg.
  { unfold Rev2.getGroupPostUpdateDiagnostics.
    intros msg (ms & _ & (cur & _ & [= <-])%bind_Return_inv)%bind_Return_inv.
    done. }
  split_and!; [done..|].
  rewrite <- Hiff.
  destruct (Rev2.getGroupPostUpdateDiagnostics env gid) as [msg|[]] eqn:E;
    split; try done.
  - intros H. destruct H. by rewrite (Hmsg msg).
Qed.
